(** * rag-telegram-bot: the deduplication-and-delivery pipeline of [app.py]

    A shallow embedding of [src/app.py] and the properties of its
    polling cycle.

    Python values are modelled as follows.
    - [str] is [string]; a string stands for the UTF-8 encoding of the
      Python text, which is also what the seen-links file holds on disk.
    - The [set] of seen links is a [gset string].  Its iteration order,
      which Python leaves unspecified, is an oracle of the environment.
    - An exception is a value of [exn]; every [exn] is an instance of
      Python's [Exception], so [except Exception] catches all of them.
    - Code that performs effects lives in the monad [M]: a world (remote
      file, local file, trace of calls) is threaded through, and a raised
      exception keeps the effects performed before it.
    - The collaborators (feedparser, trafilatura, the T5 model, the
      Telegram endpoint, the Hugging Face Hub) are fields of [Env].
      Within one cycle a collaborator answers the same call the same
      way; from one cycle to the next the environment may change.
    - Files are read and written as on a POSIX system: ["\n"] is written
      as it is, and reading applies universal newlines.  The remote file
      is taken to decode as UTF-8; a file that does not is read by the
      code as the empty set, the [except] branch of [get_seen_links]. *)

From Stdlib Require Import ZArith Ascii List Sorting.Sorted.
From Stdlib Require String.
From stdpp Require Import base tactics option list gmap sets strings sorting.

Local Open Scope Z_scope.
#[local] Set Warnings "-clear-no-such-hyp".

(** ** Exceptions and outcomes *)

Inductive exn : Type :=
  | AttributeError (name : string)
  | EntryNotFoundError
  | RuntimeError (msg : string).

Inductive outcome (A : Type) : Type :=
  | Returned (a : A)
  | Raised (e : exn).
Arguments Returned {A} a.
Arguments Raised {A} e.

(** ** Text: line breaks and white space *)

Definition LF : ascii := ascii_of_nat 10.
Definition CR : ascii := ascii_of_nat 13.
Definition newline : string := String LF "".

(** Reading a file opened with [open(path, 'r')] translates ["\r\n"] and a
    lone ["\r"] to ["\n"] (universal newlines). *)
Fixpoint universal_newlines (s : string) : string :=
  match s with
  | "" => ""
  | String c rest =>
      if Ascii.eqb c CR then
        match rest with
        | String c' rest' =>
            if Ascii.eqb c' LF then String LF (universal_newlines rest')
            else String LF (universal_newlines rest)
        | "" => String LF ""
        end
      else String c (universal_newlines rest)
  end.

(** Iterating over a text file yields its lines, each with its ["\n"];
    a last line without ["\n"] is yielded as it is. *)
Fixpoint file_lines (s : string) : list string :=
  match s with
  | "" => []
  | String c rest =>
      if Ascii.eqb c LF then newline :: file_lines rest
      else match file_lines rest with
           | [] => [String c ""]
           | line :: lines => String c line :: lines
           end
  end.

(** The characters for which [str.isspace] holds, as UTF-8 byte
    sequences: U+0009..U+000D, U+001C..U+0020 (one byte), U+0085 and
    U+00A0 (two bytes), U+1680, U+2000..U+200A, U+2028, U+2029, U+202F,
    U+205F and U+3000 (three bytes). *)
Definition is_space1 (c : ascii) : bool :=
  let n := nat_of_ascii c in
  ((9 <=? n)%nat && (n <=? 13)%nat) || ((28 <=? n)%nat && (n <=? 32)%nat).

Definition is_space2 (c1 c2 : ascii) : bool :=
  (nat_of_ascii c1 =? 194)%nat
  && ((nat_of_ascii c2 =? 133)%nat || (nat_of_ascii c2 =? 160)%nat).

Definition is_space3 (c1 c2 c3 : ascii) : bool :=
  let n1 := nat_of_ascii c1 in
  let n2 := nat_of_ascii c2 in
  let n3 := nat_of_ascii c3 in
  ((n1 =? 225) && (n2 =? 154) && (n3 =? 128))%nat
  || ((n1 =? 226) && (n2 =? 128)
      && (((128 <=? n3) && (n3 <=? 138)) || (n3 =? 168) || (n3 =? 169)
          || (n3 =? 175)))%nat
  || ((n1 =? 226) && (n2 =? 129) && (n3 =? 159))%nat
  || ((n1 =? 227) && (n2 =? 128) && (n3 =? 128))%nat.

(** [str.lstrip()] on the bytes of a string. *)
Fixpoint lstrip_bytes (s : list ascii) : list ascii :=
  match s with
  | [] => []
  | c1 :: s1 =>
      if is_space1 c1 then lstrip_bytes s1
      else match s1 with
           | [] => s
           | c2 :: s2 =>
               if is_space2 c1 c2 then lstrip_bytes s2
               else match s2 with
                    | [] => s
                    | c3 :: s3 =>
                        if is_space3 c1 c2 c3 then lstrip_bytes s3 else s
                    end
           end
  end.

(** The same scan over the reversed bytes, for [str.rstrip()]: a
    multi-byte character is met last byte first. *)
Fixpoint lstrip_rev_bytes (s : list ascii) : list ascii :=
  match s with
  | [] => []
  | c1 :: s1 =>
      if is_space1 c1 then lstrip_rev_bytes s1
      else match s1 with
           | [] => s
           | c2 :: s2 =>
               if is_space2 c2 c1 then lstrip_rev_bytes s2
               else match s2 with
                    | [] => s
                    | c3 :: s3 =>
                        if is_space3 c3 c2 c1 then lstrip_rev_bytes s3 else s
                    end
           end
  end.

Definition rstrip_bytes (s : list ascii) : list ascii :=
  reverse (lstrip_rev_bytes (reverse s)).

(** [str.strip()]. *)
Definition strip (s : string) : string :=
  String.string_of_list_ascii
    (lstrip_bytes (rstrip_bytes (String.list_ascii_of_string s))).

(** Whether a string contains a byte that ends a line when read back. *)
Fixpoint has_linebreak (s : string) : bool :=
  match s with
  | "" => false
  | String c rest => Ascii.eqb c LF || Ascii.eqb c CR || has_linebreak rest
  end.

(** Python truthiness of a value that is [None] or a [str]. *)
Definition truthy (v : option string) : bool :=
  match v with
  | None => false
  | Some s => negb (String.eqb s "")
  end.

(** ** Data model *)

(** An item of a parsed feed.  [feedparser] gives an entry only the
    attributes its feed item has: reading a missing one raises
    [AttributeError].  [published] is the publication time of the item;
    [run_pipeline] never reads it, it serves to state which entry is the
    older one. *)
Record Entry : Type := {
  link : option string;
  title : option string;
  published : Z
}.

(** The result of [feedparser.parse(url)]: [feed.feed.title] and
    [feed.entries]. *)
Record Feed : Type := {
  feed_title : option string;
  entries : list Entry
}.

(** What [send_telegram_message] observes of its POST request. *)
Inductive PostResult : Type :=
  | Responded (status_code : Z) (json_ok : bool)
  | PostRaised (e : exn).

(** The branch of [send_telegram_message] that was logged. *)
Inductive SendLog : Type :=
  | SentSuccessfully
  | ErrorSending
  | FailedToSend.

(** The collaborators during one cycle. *)
Record Env : Type := {
  feedparser_parse : string -> Feed;
  trafilatura_fetch_url : string -> outcome (option string);
  trafilatura_extract : string -> outcome (option string);
  (** tokenizer.encode, model.generate and tokenizer.decode on a prompt *)
  t5_generate : string -> outcome string;
  requests_post : string -> PostResult;
  (** [Some e] when [hf_hub_download] fails for a reason other than a
      missing file (network, authentication, missing repository) *)
  hub_download_error : option exn;
  hub_upload_error : option exn;
  (** the order in which [for link in seen_links] visits a set *)
  set_order : gset string -> list string
}.

(** The calls a cycle makes, in order.  The events of [run_pipeline]
    carry the [article_link] in scope at the call. *)
Inductive Event : Type :=
  | EvLoad                                  (* get_seen_links() *)
  | EvCheck (url : string)                  (* feedparser.parse(url) *)
  | EvScrape (article_link : string)        (* scrape_article_text(article_link) *)
  | EvSummarize (article_link : string)     (* summarize_text(full_text) *)
  | EvSend (article_link message : string) (log : SendLog)
                                            (* send_telegram_message(message_to_send) *)
  | EvAdd (article_link : string)           (* seen_articles.add(article_link) *)
  | EvSave (seen_links : gset string)       (* update_seen_links(seen_articles) *)
  | EvUploaded (content : string)           (* upload_file(...) succeeded *)
  | EvError (e : exn)                       (* print("Error in main loop: ...") *)
  | EvSleep (seconds : Z).                  (* time.sleep(seconds) *)

(** The state outside the interpreter: the file [DB_FILENAME] of the
    dataset repository [DB_REPO_ID] (absent until the first upload), the
    local file [DB_FILENAME], and the calls made so far. *)
Record World : Type := {
  remote : option string;
  local_file : option string;
  trace : list Event
}.

(** ** The monad of effectful code *)

Definition M (A : Type) : Type := World -> outcome A * World.

#[global] Instance M_ret : MRet M := fun A a w => (Returned a, w).

#[global] Instance M_bind : MBind M := fun A B f m w =>
  match m w with
  | (Returned a, w') => f a w'
  | (Raised e, w') => (Raised e, w')
  end.

Definition raise {A : Type} (e : exn) : M A := fun w => (Raised e, w).

(** [try: body except Exception as e: handler] *)
Definition try_except {A : Type} (body : M A) (handler : exn -> M A) : M A :=
  fun w =>
    match body w with
    | (Returned a, w') => (Returned a, w')
    | (Raised e, w') => handler e w'
    end.

(** The world after further calls [tr]. *)
Definition extend (w : World) (tr : list Event) : World :=
  {| remote := remote w; local_file := local_file w;
     trace := trace w ++ tr |}.

Definition emit (ev : Event) : M unit := fun w =>
  (Returned tt, extend w [ev]).

(** Reading attribute [name] of a feedparser object. *)
Definition getattr {A : Type} (name : string) (v : option A) : M A :=
  match v with
  | Some a => mret a
  | None => raise (AttributeError name)
  end.

Definition lift {A : Type} (o : outcome A) : M A := fun w => (o, w).

(** ** Settings *)

Definition RSS_URLS : list string :=
  [ "https://www.news18.com/rss/india.xml";
    "https://feeds.feedburner.com/NDTV-Latest";
    "https://www.hindustantimes.com/feeds/rss/latest-news/rssfeed.xml";
    "https://www.thehindu.com/news/national/?service=rss" ].

Definition DB_FILENAME : string := "seen_links.txt".

(** ** Helper functions *)

(** [scrape_article_text]: every exception of the two trafilatura calls
    is caught, and the function falls through to [return None]. *)
Definition scrape_article_text (env : Env) (url : string) : option string :=
  match trafilatura_fetch_url env url with
  | Returned downloaded =>
      if truthy downloaded then
        match trafilatura_extract env (default "" downloaded) with
        | Returned text => text
        | Raised _ => None
        end
      else None
  | Raised _ => None
  end.

(** [summarize_text]: the model's exceptions are not caught here. *)
Definition summarize_text (env : Env) (text : option string) : outcome string :=
  if negb (truthy text) then Returned "Could not generate summary (no text)."
  else t5_generate env ("summarize: " +:+ default "" text).

(** [send_telegram_message]: the request, the status test and
    [response.json()] are all inside the [try]; nothing is raised and
    nothing is returned.  The result is the message that was logged. *)
Definition send_telegram_message (env : Env) (message : string) : SendLog :=
  match requests_post env message with
  | Responded status_code json_ok =>
      if (status_code =? 200)%Z then SentSuccessfully
      else if json_ok then ErrorSending else FailedToSend
  | PostRaised _ => FailedToSend
  end.

(** The f-string [message_to_send]. *)
Definition message_to_send (source title_ summary article_link : string)
  : string :=
  newline +:+ "ðŸ†• *New Article Summary*" +:+ newline
  +:+ "*Source:* " +:+ source +:+ newline
  +:+ "*Title:* " +:+ title_ +:+ newline
  +:+ "*Summary:*" +:+ newline
  +:+ summary +:+ newline
  +:+ "*Link:* " +:+ article_link +:+ newline
  +:+ "                    ".

(** ** Database functions *)

(** [hf_hub_download] returns the remote file, or raises when the
    request fails or the file is not there. *)
Definition hf_hub_download (env : Env) : M string := fun w =>
  match hub_download_error env with
  | Some e => (Raised e, w)
  | None =>
      match remote w with
      | Some content => (Returned content, w)
      | None => (Raised EntryNotFoundError, w)
      end
  end.

(** [set(line.strip() for line in f)] *)
Definition parse_links (content : string) : gset string :=
  list_to_set (strip <$> file_lines (universal_newlines content)).

Definition get_seen_links (env : Env) : M (gset string) :=
  emit EvLoad;;
  try_except
    (content ← hf_hub_download env;
     mret (parse_links content))
    (fun _ => mret ∅).

(** [for link in seen_links: f.write(f"{link}
")] into a file opened
    with ['w'], which truncates it. *)
Fixpoint write_links (links : list string) : string :=
  match links with
  | [] => ""
  | link0 :: rest => link0 +:+ newline +:+ write_links rest
  end.

Definition write_local (content : string) : M unit := fun w =>
  (Returned tt,
   {| remote := remote w; local_file := Some content; trace := trace w |}).

(** [upload_file] sends the local file and replaces the remote one. *)
Definition upload_file (env : Env) : M unit := fun w =>
  match hub_upload_error env with
  | Some e => (Raised e, w)
  | None =>
      match local_file w with
      | Some content =>
          (Returned tt,
           {| remote := Some content; local_file := local_file w;
              trace := trace w ++ [EvUploaded content] |})
      | None => (Raised (RuntimeError "no such file"), w)
      end
  end.

Definition update_seen_links (env : Env) (seen_links : gset string) : M unit :=
  emit (EvSave seen_links);;
  try_except
    (write_local (write_links (set_order env seen_links));;
     upload_file env)
    (fun _ => mret tt).

(** ** The main pipeline *)

(** The two local variables of [run_pipeline] that the feed loop
    updates. *)
Record LoopState : Type := {
  seen_articles : gset string;
  new_links_added : bool
}.

(** The body of [if article_link not in seen_articles:], up to the
    [break]. *)
Definition process_entry (env : Env) (feed : Feed) (entry : Entry)
    (article_link : string) (st : LoopState) : M LoopState :=
  _ ← getattr "title" (title entry);
  emit (EvScrape article_link);;
  let full_text := scrape_article_text env article_link in
  if truthy full_text then
    emit (EvSummarize article_link);;
    summary ← lift (summarize_text env full_text);
    source ← getattr "title" (feed_title feed);
    title_ ← getattr "title" (title entry);
    let message := message_to_send source title_ summary article_link in
    emit (EvSend article_link message (send_telegram_message env message));;
    emit (EvAdd article_link);;
    mret {| seen_articles := {[article_link]} ∪ seen_articles st;
            new_links_added := true |}
  else mret st.

(** [for entry in reversed(feed.entries)], given the entries still to
    visit: an entry whose link was seen is passed over; the first other
    one is processed and the loop is left. *)
Fixpoint scan_entries (env : Env) (feed : Feed) (es : list Entry)
    (st : LoopState) : M LoopState :=
  match es with
  | [] => mret st
  | entry :: rest =>
      article_link ← getattr "link" (link entry);
      if decide (article_link ∈ seen_articles st)
      then scan_entries env feed rest st
      else process_entry env feed entry article_link st
  end.

(** The body of [for url in RSS_URLS]. *)
Definition check_feed (env : Env) (url : string) (st : LoopState)
  : M LoopState :=
  emit (EvCheck url);;
  let feed := feedparser_parse env url in
  scan_entries env feed (reverse (entries feed)) st.

Fixpoint check_feeds (env : Env) (urls : list string) (st : LoopState)
  : M LoopState :=
  match urls with
  | [] => mret st
  | url :: rest =>
      st' ← check_feed env url st;
      check_feeds env rest st'
  end.

Definition run_pipeline (env : Env) : M unit :=
  seen ← get_seen_links env;
  st ← check_feeds env RSS_URLS
         {| seen_articles := seen; new_links_added := false |};
  if new_links_added st then update_seen_links env (seen_articles st)
  else mret tt.

(** One turn of [while True] in [background_task]. *)
Definition loop_body (env : Env) : M unit :=
  try_except
    (run_pipeline env;;
     emit (EvSleep 1800))
    (fun e =>
       emit (EvError e);;
       emit (EvSleep 60)).

(** [background_task], for as many turns of the loop as there are
    environments: the k-th turn runs against the k-th one.  The loop has
    no exit; when the list is used up the loop is still running. *)
Fixpoint background_task (envs : list Env) : M unit :=
  match envs with
  | [] => mret tt
  | env :: rest =>
      loop_body env;;
      background_task rest
  end.

(** ** The Streamlit script *)

(** Streamlit runs [app.py] from top to bottom for a browser session
    each time the session connects or reruns.  [st.session_state] is the
    dictionary of that one session, kept between its reruns; a new
    session starts with an empty one.  All sessions share the server
    process and its threads. *)
Module Streamlit.

Record Server : Type := {
  session_state : gmap nat (gmap string nat);
  threads : list nat
}.

Definition fresh : Server := {| session_state := ∅; threads := [] |}.

(** The last statement of the script, for a run in session [sid]:
    [if "bot_thread" not in st.session_state: ...]. *)
Definition script_run (sid : nat) (srv : Server) : Server :=
  let state := default ∅ (session_state srv !! sid) in
  match state !! "bot_thread" with
  | Some _ => srv
  | None =>
      let thread := length (threads srv) in
      {| session_state :=
           <[sid := <["bot_thread" := thread]> state]> (session_state srv);
         threads := threads srv ++ [thread] |}
  end.

(** The script runs of a process, given the session of each run. *)
Definition script_runs (sids : list nat) (srv : Server) : Server :=
  foldl (fun s sid => script_run sid s) srv sids.

End Streamlit.

(** ** Traces *)

Definition initial_world (stored : option string) : World :=
  {| remote := stored; local_file := None; trace := [] |}.

Definition is_scrape (ev : Event) : bool :=
  match ev with EvScrape _ => true | _ => false end.
Definition is_summarize (ev : Event) : bool :=
  match ev with EvSummarize _ => true | _ => false end.
Definition is_send (ev : Event) : bool :=
  match ev with EvSend _ _ _ => true | _ => false end.
Definition is_add (ev : Event) : bool :=
  match ev with EvAdd _ => true | _ => false end.
Definition is_load (ev : Event) : bool :=
  match ev with EvLoad => true | _ => false end.

Definition count (p : Event -> bool) (tr : list Event) : nat :=
  length (filter (fun ev => p ev = true) tr).

(** The links for which a notification was attempted, in order. *)
Fixpoint sent_links (tr : list Event) : list string :=
  match tr with
  | [] => []
  | EvSend l _ _ :: rest => l :: sent_links rest
  | _ :: rest => sent_links rest
  end.

(** The links added to the seen set, in order. *)
Fixpoint added_links (tr : list Event) : list string :=
  match tr with
  | [] => []
  | EvAdd l :: rest => l :: added_links rest
  | _ :: rest => added_links rest
  end.

(** The calls made by one cycle started in world [w]. *)
Definition cycle_trace (env : Env) (w : World) : list Event :=
  drop (length (trace w)) (trace (run_pipeline env w).2).

(** The set read from the store at the start of a cycle. *)
Definition loaded (env : Env) (w : World) : gset string :=
  match (get_seen_links env w).1 with
  | Returned links => links
  | Raised _ => ∅
  end.

(** A link that the file format gives back unchanged: no line break
    inside, no white space at either end. *)
Definition clean (l : string) : Prop :=
  has_linebreak l = false ∧ strip l = l.

(** The events that belong to the processing of one entry. *)
Definition entry_event (ev : Event) : bool :=
  is_scrape ev || is_summarize ev || is_send ev || is_add ev.

(** A part of a trace in which at most one entry is processed. *)
Definition at_most_one_entry (body : list Event) : Prop :=
  (count is_scrape body ≤ 1)%nat ∧ (count is_summarize body ≤ 1)%nat
  ∧ (count is_send body ≤ 1)%nat ∧ (count is_add body ≤ 1)%nat
  ∧ ∀ ev, ev ∈ body → entry_event ev = true.

(** A feed that lists its entries newest first. *)
Definition newest_first (es : list Entry) : Prop :=
  StronglySorted (fun a b => (published b ≤ published a)%Z) es.

(** An entry whose link is present and already seen. *)
Definition is_seen (seen : gset string) (e : Entry) : Prop :=
  ∃ l, link e = Some l ∧ l ∈ seen.

(** ** Describing a cycle *)

(** The trace and outcome of scanning entries [es] from state [st]. *)
Inductive segment (env : Env) (es : list Entry) (st : LoopState)
  : list Event -> outcome LoopState -> Prop :=
  | seg_none :
      segment env es st [] (Returned st)
  | seg_attr e :
      segment env es st [] (Raised e)
  | seg_skip l :
      l ∉ seen_articles st -> (∃ en, en ∈ es ∧ link en = Some l) ->
      truthy (scrape_article_text env l) = false ->
      segment env es st [EvScrape l] (Returned st)
  | seg_abort l e :
      l ∉ seen_articles st -> (∃ en, en ∈ es ∧ link en = Some l) ->
      segment env es st [EvScrape l; EvSummarize l] (Raised e)
  | seg_done l m log :
      l ∉ seen_articles st -> (∃ en, en ∈ es ∧ link en = Some l) ->
      truthy (scrape_article_text env l) = true ->
      segment env es st [EvScrape l; EvSummarize l; EvSend l m log; EvAdd l]
        (Returned {| seen_articles := {[l]} ∪ seen_articles st;
                     new_links_added := true |}).

(** The segments of the feeds visited by [check_feeds], one per feed
    reached, and the outcome of the loop. *)
Inductive feeds_run (env : Env)
  : LoopState -> list string -> list (list Event) -> outcome LoopState -> Prop :=
  | run_nil st :
      feeds_run env st [] [] (Returned st)
  | run_raise st url rest tr e :
      segment env (entries (feedparser_parse env url)) st tr (Raised e) ->
      feeds_run env st (url :: rest) [EvCheck url :: tr] (Raised e)
  | run_cons st url rest tr st' segs o :
      segment env (entries (feedparser_parse env url)) st tr (Returned st') ->
      feeds_run env st' rest segs o ->
      feeds_run env st (url :: rest) ((EvCheck url :: tr) :: segs) o.

(** The world after [update_seen_links env links] returns. *)
Definition saved_world (env : Env) (links : gset string) (w : World) : World :=
  let content := write_links (set_order env links) in
  match hub_upload_error env with
  | None =>
      {| remote := Some content; local_file := Some content;
         trace := trace w ++ [EvSave links; EvUploaded content] |}
  | Some _ =>
      {| remote := remote w; local_file := Some content;
         trace := trace w ++ [EvSave links] |}
  end.

(** The link an entry event is about. *)
Definition event_link (ev : Event) : option string :=
  match ev with
  | EvScrape l | EvSummarize l | EvSend l _ _ | EvAdd l => Some l
  | _ => None
  end.

(** The entry with link [l] went through all four steps. *)
Definition processed (l : string) (tr : list Event) : Prop :=
  EvScrape l ∈ tr ∧ EvSummarize l ∈ tr
  ∧ (∃ m log, EvSend l m log ∈ tr) ∧ EvAdd l ∈ tr.

(** No step was taken for link [l]. *)
Definition untouched (l : string) (tr : list Event) : Prop :=
  ∀ ev, ev ∈ tr -> event_link ev ≠ Some l.

(** ** Describing more of the code *)

(** A byte that does not end a line. *)
Definition not_break (c : ascii) : Prop :=
  Ascii.eqb c LF = false ∧ Ascii.eqb c CR = false.

(** A line as the loader sees it: a body free of line breaks, with or
    without a final ["\n"]. *)
Definition line_shape (line : string) : Prop :=
  ∃ body, has_linebreak body = false
          ∧ (line = body ∨ line = body +:+ newline).

(** The feeds checked, in order. *)
Fixpoint checked_urls (tr : list Event) : list string :=
  match tr with
  | [] => []
  | EvCheck url :: rest => url :: checked_urls rest
  | _ :: rest => checked_urls rest
  end.

(** The calls of [update_seen_links env links]. *)
Definition save_events (env : Env) (links : gset string) : list Event :=
  match hub_upload_error env with
  | None => [EvSave links; EvUploaded (write_links (set_order env links))]
  | Some _ => [EvSave links]
  end.

(** Message [m], logged as [log], is the notification of entry [e] of
    [feed]: the entry and the feed have titles, the extractor gave a
    text that is not empty, the model summarized it, and [m] is the
    message made of these. *)
Definition sent_from (env : Env) (feed : Feed) (e : Entry)
    (l m : string) (log : SendLog) : Prop :=
  link e = Some l
  ∧ ∃ source t text summary,
      feed_title feed = Some source ∧ title e = Some t
      ∧ scrape_article_text env l = Some text ∧ text ≠ ""
      ∧ t5_generate env ("summarize: " +:+ text) = Returned summary
      ∧ m = message_to_send source t summary l
      ∧ log = send_telegram_message env m.

(** The sessions whose state holds ["bot_thread"]. *)
Definition has_bot_thread (srv : Streamlit.Server) (sid : nat) : Prop :=
  is_Some (default ∅ (Streamlit.session_state srv !! sid) !! "bot_thread").

(** * Sample runs *)

Definition story (l t : string) (p : Z) : Entry :=
  {| link := Some l; title := Some t; published := p |}.

Definition story_old : Entry := story "https://example.org/old" "Old" 1.
Definition story_mid : Entry := story "https://example.org/mid" "Mid" 2.
Definition story_new : Entry := story "https://example.org/new" "New" 3.

Definition first_url : string := "https://www.news18.com/rss/india.xml".
Definition second_url : string := "https://feeds.feedburner.com/NDTV-Latest".

Definition empty_feed : Feed := {| feed_title := Some "Empty"; entries := [] |}.

(** An environment in which every collaborator works and only the first
    configured feed has entries. *)
Definition working_env (first : Feed) : Env :=
  {| feedparser_parse := fun url =>
       if String.eqb url first_url then first else empty_feed;
     trafilatura_fetch_url := fun url => Returned (Some url);
     trafilatura_extract := fun downloaded => Returned (Some downloaded);
     t5_generate := fun _ => Returned "summary";
     requests_post := fun _ => Responded 200 true;
     hub_download_error := None;
     hub_upload_error := None;
     set_order := elements |}.

(** A feed that lists its entries newest first, as RSS feeds do. *)
Definition newest_first_feed : Feed :=
  {| feed_title := Some "News"; entries := [story_new; story_mid; story_old] |}.

(** The same entries in the order oldest to newest. *)
Definition oldest_first_feed : Feed :=
  {| feed_title := Some "News"; entries := [story_old; story_mid; story_new] |}.

(** The first feed delivers; summarizing the article of the second feed
    raises. *)
Definition failing_model_env : Env :=
  {| feedparser_parse := fun url =>
       if String.eqb url first_url
       then {| feed_title := Some "News"; entries := [story_old] |}
       else if String.eqb url second_url
       then {| feed_title := Some "More"; entries := [story_mid] |}
       else empty_feed;
     trafilatura_fetch_url := fun url => Returned (Some url);
     trafilatura_extract := fun downloaded => Returned (Some downloaded);
     t5_generate := fun prompt =>
       if String.eqb prompt "summarize: https://example.org/mid"
       then Raised (RuntimeError "out of memory")
       else Returned "summary";
     requests_post := fun _ => Responded 200 true;
     hub_download_error := None;
     hub_upload_error := None;
     set_order := elements |}.

(** Telegram cannot be reached. *)
Definition unreachable_telegram_env : Env :=
  {| feedparser_parse := fun url =>
       if String.eqb url first_url
       then {| feed_title := Some "News"; entries := [story_old] |}
       else empty_feed;
     trafilatura_fetch_url := fun url => Returned (Some url);
     trafilatura_extract := fun downloaded => Returned (Some downloaded);
     t5_generate := fun _ => Returned "summary";
     requests_post := fun _ => PostRaised (RuntimeError "connection refused");
     hub_download_error := None;
     hub_upload_error := None;
     set_order := elements |}.

(** Extraction yields nothing. *)
Definition no_text_env : Env :=
  {| feedparser_parse := fun url =>
       if String.eqb url first_url then newest_first_feed else empty_feed;
     trafilatura_fetch_url := fun url => Returned None;
     trafilatura_extract := fun downloaded => Returned (Some downloaded);
     t5_generate := fun _ => Returned "summary";
     requests_post := fun _ => Responded 200 true;
     hub_download_error := None;
     hub_upload_error := None;
     set_order := elements |}.

(** Every collaborator works except the Hub, which refuses the upload. *)
Definition refused_upload_env : Env :=
  {| feedparser_parse := fun url =>
       if String.eqb url first_url then newest_first_feed else empty_feed;
     trafilatura_fetch_url := fun url => Returned (Some url);
     trafilatura_extract := fun downloaded => Returned (Some downloaded);
     t5_generate := fun _ => Returned "summary";
     requests_post := fun _ => Responded 200 true;
     hub_download_error := None;
     hub_upload_error := Some (RuntimeError "403 Forbidden");
     set_order := elements |}.

(** A link with a space at its end. *)
Definition padded_link : string := "https://example.org/a ".

(** A trace in which each feed reached has a part of its own, opened by
    [EvCheck url], holding at most one scrape, one summary, one
    notification and one addition; what follows the feeds processes no
    entry. *)
Definition one_entry_per_feed (tr : list Event) : Prop :=
  ∃ segs tail,
    tr = EvLoad :: concat segs ++ tail
    ∧ Forall2 (fun url seg => ∃ body, seg = EvCheck url :: body
                                      ∧ at_most_one_entry body)
              (take (length segs) RSS_URLS) segs
    ∧ ∀ ev, ev ∈ tail -> entry_event ev = false.

(** * Properties *)

(** ** The monad *)

Lemma extend_nil w : extend w [] = w.
Proof. destruct w; unfold extend; simpl. by rewrite app_nil_r. Qed.

Lemma extend_extend w tr1 tr2 : extend (extend w tr1) tr2 = extend w (tr1 ++ tr2).
Proof. unfold extend; simpl. by rewrite app_assoc. Qed.

Lemma trace_extend w tr : trace (extend w tr) = trace w ++ tr.
Proof. reflexivity. Qed.

Lemma remote_extend w tr : remote (extend w tr) = remote w.
Proof. reflexivity. Qed.

Lemma drop_trace_extend w tr : drop (length (trace w)) (trace (extend w tr)) = tr.
Proof. simpl. by rewrite drop_app_length. Qed.

Ltac unfold_M :=
  unfold getattr, lift, emit, raise, try_except in *;
  unfold mbind, M_bind, mret, M_ret in *; simpl.

(** ** What a feed contributes to a cycle *)

Lemma process_entry_segment env feed entry l st w :
  l ∉ seen_articles st -> link entry = Some l ->
  ∃ tr o, process_entry env feed entry l st w = (o, extend w tr)
          ∧ segment env [entry] st tr o.
Proof.
  intros Hl He. unfold process_entry. unfold_M.
  assert (Hin : ∃ en, en ∈ [entry] ∧ link en = Some l)
    by (exists entry; split; [apply list_elem_of_here | done]).
  destruct (title entry) as [t|].
  2: { exists [], (Raised (AttributeError "title")).
       rewrite extend_nil. split; [done | constructor]. }
  destruct (truthy (scrape_article_text env l)) eqn:Htext.
  2: { exists [EvScrape l], (Returned st). split; [done | by constructor]. }
  destruct (summarize_text env (scrape_article_text env l)) as [summary|e].
  2: { exists [EvScrape l; EvSummarize l], (Raised e).
       rewrite extend_extend. split; [done | by constructor]. }
  destruct (feed_title feed) as [source|].
  2: { exists [EvScrape l; EvSummarize l], (Raised (AttributeError "title")).
       rewrite extend_extend. split; [done | by constructor]. }
  eexists _, _. rewrite !extend_extend. simpl. split; [reflexivity |].
  by constructor.
Qed.

Lemma segment_weaken env es es' st tr o :
  es ⊆ es' -> segment env es st tr o -> segment env es' st tr o.
Proof.
  intros Hsub H. destruct H as [| |l Hl [en [Hen Hk]] Ht|l e Hl [en [Hen Hk]]
                                |l m log Hl [en [Hen Hk]] Ht].
  - apply seg_none.
  - apply seg_attr.
  - apply seg_skip; [done | exists en; split; [by apply Hsub | done] | done].
  - apply seg_abort; [done | exists en; split; [by apply Hsub | done]].
  - apply seg_done; [done | exists en; split; [by apply Hsub | done] | done].
Qed.

Lemma scan_entries_segment env feed es st w :
  ∃ tr o, scan_entries env feed es st w = (o, extend w tr)
          ∧ segment env es st tr o.
Proof.
  induction es as [|entry rest IH]; simpl.
  - exists [], (Returned st). rewrite extend_nil. split; [done | constructor].
  - unfold_M. destruct (link entry) as [l|] eqn:Hl.
    2: { exists [], (Raised (AttributeError "link")).
         rewrite extend_nil. split; [done | constructor]. }
    destruct (decide (l ∈ seen_articles st)) as [Hin|Hnin].
    + destruct IH as (tr & o & Heq & Hseg). exists tr, o. split; [done |].
      eapply segment_weaken; [| exact Hseg].
      intros x Hx. by apply list_elem_of_further.
    + destruct (process_entry_segment env feed entry l st w Hnin Hl)
        as (tr & o & Heq & Hseg).
      exists tr, o. split; [done |].
      eapply segment_weaken; [| exact Hseg].
      intros x Hx. apply list_elem_of_singleton in Hx. subst x.
      apply list_elem_of_here.
Qed.

Lemma check_feed_segment env url st w :
  ∃ tr o, check_feed env url st w = (o, extend w (EvCheck url :: tr))
          ∧ segment env (entries (feedparser_parse env url)) st tr o.
Proof.
  unfold check_feed. unfold_M.
  destruct (scan_entries_segment env (feedparser_parse env url)
              (reverse (entries (feedparser_parse env url))) st
              (extend w [EvCheck url])) as (tr & o & Heq & Hseg).
  exists tr, o. rewrite Heq, extend_extend. split; [done |].
  eapply segment_weaken; [| exact Hseg].
  intros x Hx. by apply elem_of_reverse.
Qed.

Lemma check_feeds_run env urls st w :
  ∃ segs o, check_feeds env urls st w = (o, extend w (concat segs))
            ∧ feeds_run env st urls segs o.
Proof.
  revert st w. induction urls as [|url rest IH]; intros st w; simpl.
  - exists [], (Returned st). rewrite extend_nil. split; [done | constructor].
  - unfold_M.
    destruct (check_feed_segment env url st w) as (tr & o & Heq & Hseg).
    rewrite Heq. destruct o as [st'|e].
    + destruct (IH st' (extend w (EvCheck url :: tr)))
        as (segs & o & Heq' & Hrun).
      exists ((EvCheck url :: tr) :: segs), o. rewrite Heq', extend_extend.
      split; [done | by econstructor].
    + exists [EvCheck url :: tr], (Raised e). simpl. rewrite app_nil_r.
      split; [done | by constructor].
Qed.

(** ** Reading traces *)

Lemma sent_links_app tr1 tr2 :
  sent_links (tr1 ++ tr2) = sent_links tr1 ++ sent_links tr2.
Proof.
  induction tr1 as [|ev tr1 IH]; [done |].
  destruct ev; simpl; by rewrite ?IH.
Qed.

Lemma added_links_app tr1 tr2 :
  added_links (tr1 ++ tr2) = added_links tr1 ++ added_links tr2.
Proof.
  induction tr1 as [|ev tr1 IH]; [done |].
  destruct ev; simpl; by rewrite ?IH.
Qed.

Lemma elem_of_added_links l tr : l ∈ added_links tr ↔ EvAdd l ∈ tr.
Proof.
  induction tr as [|ev tr IH]; simpl.
  - split; intros H; by apply elem_of_nil in H.
  - destruct ev; simpl; rewrite ?elem_of_cons, IH;
      split; intros H; try (by right);
      try (destruct H as [H|H]; [discriminate | done]).
    + destruct H as [->|H]; [by left | by right].
    + destruct H as [H|H]; [left; congruence | by right].
Qed.

Lemma elem_of_sent_links l tr :
  l ∈ sent_links tr ↔ ∃ m log, EvSend l m log ∈ tr.
Proof.
  induction tr as [|ev tr IH]; simpl.
  - split; [intros H; by apply elem_of_nil in H |].
    intros (m & log & H). by apply elem_of_nil in H.
  - assert (Hother : (∀ l' m log, ev ≠ EvSend l' m log) ->
                     (l ∈ sent_links tr ↔ ∃ m log, EvSend l m log ∈ ev :: tr)).
    { intros Hne. rewrite IH. split; intros (m & log & H); exists m, log.
      - by right.
      - apply elem_of_cons in H as [H|H]; [| done].
        symmetry in H. by apply Hne in H. }
    destruct ev; try (apply Hother; congruence).
    rewrite elem_of_cons, IH. split.
    + intros [->|(m & log' & H)]; [eexists _, _; left; reflexivity |].
      exists m, log'. by right.
    + intros (m & log' & H). apply elem_of_cons in H as [H|H].
      * left. congruence.
      * right. by exists m, log'.
Qed.

Lemma count_app p tr1 tr2 :
  count p (tr1 ++ tr2) = (count p tr1 + count p tr2)%nat.
Proof. unfold count. by rewrite filter_app, length_app. Qed.

Lemma count_zero p tr :
  (∀ ev, ev ∈ tr -> p ev = false) -> count p tr = 0%nat.
Proof.
  unfold count. induction tr as [|ev tr IH]; intros H; [done |].
  rewrite filter_cons_False.
  - apply IH. intros ev' Hev'. apply H. by right.
  - rewrite (H ev); [done | left].
Qed.

(** ** One feed *)

Lemma segment_sent_added env es st tr o :
  segment env es st tr o -> sent_links tr = added_links tr.
Proof. by destruct 1. Qed.

Lemma segment_at_most_one env es st tr o :
  segment env es st tr o -> at_most_one_entry tr.
Proof.
  destruct 1; unfold at_most_one_entry, count; simpl;
    repeat split; try lia;
    intros ev Hev; repeat (apply elem_of_cons in Hev as [->|Hev]; [done |]);
    by apply elem_of_nil in Hev.
Qed.

Lemma segment_added env es st tr o l :
  segment env es st tr o -> l ∈ added_links tr ->
  (l ∉ seen_articles st) ∧ (∃ en, en ∈ es ∧ link en = Some l)
  ∧ truthy (scrape_article_text env l) = true
  ∧ added_links tr = [l]
  ∧ o = Returned {| seen_articles := {[l]} ∪ seen_articles st;
                    new_links_added := true |}.
Proof.
  destruct 1; simpl; intros Hl; try (by apply elem_of_nil in Hl).
  apply list_elem_of_singleton in Hl. by subst.
Qed.

Lemma segment_returned env es st tr st' :
  segment env es st tr (Returned st') ->
  (seen_articles st' = list_to_set (added_links tr) ∪ seen_articles st)
  ∧ (new_links_added st'
     = (new_links_added st || bool_decide (added_links tr ≠ []))).
Proof.
  inversion 1; subst; simpl.
  - split; [set_solver | by rewrite orb_false_r].
  - split; [set_solver | by rewrite orb_false_r].
  - split; [set_solver | by rewrite orb_true_r].
Qed.

Lemma segment_raised env es st tr e :
  segment env es st tr (Raised e) -> added_links tr = [].
Proof. by inversion 1. Qed.

(** ** All feeds of a cycle *)

Lemma feeds_run_sent_added env st urls segs o :
  feeds_run env st urls segs o ->
  sent_links (concat segs) = added_links (concat segs).
Proof.
  induction 1 as [st|st url rest tr e Hseg|st url rest tr st' segs o Hseg _ IH];
    simpl.
  - done.
  - rewrite app_nil_r. by apply segment_sent_added in Hseg.
  - rewrite sent_links_app, added_links_app, IH.
    by rewrite (segment_sent_added _ _ _ _ _ Hseg).
Qed.

Lemma feeds_run_segments env st urls segs o :
  feeds_run env st urls segs o ->
  Forall2 (fun url seg => ∃ body, seg = EvCheck url :: body
                                  ∧ at_most_one_entry body)
          (take (length segs) urls) segs.
Proof.
  induction 1 as [st|st url rest tr e Hseg|st url rest tr st' segs o Hseg _ IH];
    simpl.
  - constructor.
  - constructor; [| rewrite take_0; constructor].
    exists tr. split; [done | by eapply segment_at_most_one].
  - constructor; [| done].
    exists tr. split; [done | by eapply segment_at_most_one].
Qed.

Lemma feeds_run_length env st urls segs o :
  feeds_run env st urls segs o -> (length segs ≤ length urls)%nat.
Proof. induction 1; simpl; lia. Qed.

(** Links are added once each, none of them was seen before, and they
    are what the seen set gains. *)
Lemma feeds_run_added env st urls segs o :
  feeds_run env st urls segs o ->
  NoDup (added_links (concat segs))
  ∧ (∀ l, l ∈ added_links (concat segs) -> l ∉ seen_articles st)
  ∧ (∀ l, l ∈ added_links (concat segs) ->
          truthy (scrape_article_text env l) = true
          ∧ ∃ url en, url ∈ urls ∧ en ∈ entries (feedparser_parse env url)
                      ∧ link en = Some l)
  ∧ ∀ st', o = Returned st' ->
      (seen_articles st'
       = list_to_set (added_links (concat segs)) ∪ seen_articles st)
      ∧ (new_links_added st'
         = (new_links_added st
            || bool_decide (added_links (concat segs) ≠ []))).
Proof.
  induction 1 as [st|st url rest tr e Hseg|st url rest tr st' segs o Hseg _ IH].
  - simpl. split; [constructor |]. split; [intros l Hl; by apply elem_of_nil in Hl |].
    split; [intros l Hl; by apply elem_of_nil in Hl |].
    intros st' [= <-]. split; [set_solver | by rewrite orb_false_r].
  - simpl. rewrite app_nil_r, (segment_raised _ _ _ _ _ Hseg).
    split; [constructor |]. split; [intros l Hl; by apply elem_of_nil in Hl |].
    split; [intros l Hl; by apply elem_of_nil in Hl |]. intros st' [=].
  - destruct IH as (Hnd & Hfresh & Hfrom & Hret).
    destruct (segment_returned _ _ _ _ _ Hseg) as [Hseen Hflag].
    simpl. rewrite added_links_app.
    assert (Hhead : ∀ l, l ∈ added_links tr ->
                         (l ∉ seen_articles st) ∧ added_links tr = [l]
                         ∧ (∃ en, en ∈ entries (feedparser_parse env url)
                                  ∧ link en = Some l)
                         ∧ truthy (scrape_article_text env l) = true).
    { intros l Hl. destruct (segment_added _ _ _ _ _ l Hseg Hl) as (? & ? & ? & ? & _).
      done. }
    split; [| split; [| split]].
    + apply NoDup_app. split; [| split; [| done]].
      * destruct (added_links tr) as [|l ?] eqn:E; [constructor |].
        destruct (Hhead l) as (_ & Heq & _); [left |].
        rewrite Heq. apply NoDup_singleton.
      * intros l Hl Hl'. apply Hfresh in Hl'. apply Hl'. rewrite Hseen.
        apply elem_of_union_l. by apply elem_of_list_to_set.
    + intros l Hl. apply elem_of_app in Hl as [Hl|Hl].
      * by apply Hhead.
      * apply Hfresh in Hl. rewrite Hseen in Hl. set_solver.
    + intros l Hl. apply elem_of_app in Hl as [Hl|Hl].
      * destruct (Hhead l Hl) as (_ & _ & (en & Hen & Hk) & Ht).
        split; [done |]. exists url, en. split; [left | done].
      * destruct (Hfrom l Hl) as (Ht & u & en & Hu & Hen & Hk).
        split; [done |]. exists u, en. split; [by right | done].
    + intros st'' Ho. destruct (Hret st'' Ho) as [Hseen' Hflag'].
      split.
      * rewrite Hseen', Hseen, list_to_set_app_L. set_solver.
      * rewrite Hflag', Hflag, <- orb_assoc. f_equal.
        destruct (added_links tr), (added_links (concat segs)); done.
Qed.

Lemma feeds_run_events env st urls segs o :
  feeds_run env st urls segs o ->
  ∀ ev, ev ∈ concat segs -> (∃ url, ev = EvCheck url) ∨ entry_event ev = true.
Proof.
  induction 1 as [st|st url rest tr e Hseg|st url rest tr st' segs o Hseg _ IH];
    simpl; intros ev Hev.
  - by apply elem_of_nil in Hev.
  - rewrite app_nil_r in Hev. apply elem_of_cons in Hev as [->|Hev].
    + left. by exists url.
    + right. by apply (segment_at_most_one _ _ _ _ _ Hseg).
  - apply elem_of_cons in Hev as [->|Hev]; [left; by exists url |].
    apply elem_of_app in Hev as [Hev|Hev]; [| by apply IH].
    right. by apply (segment_at_most_one _ _ _ _ _ Hseg).
Qed.

(** ** The store *)

Lemma loaded_cases env w :
  loaded env w
  = match hub_download_error env, remote w with
    | None, Some content => parse_links content
    | _, _ => ∅
    end.
Proof.
  unfold loaded, get_seen_links, hf_hub_download. unfold_M.
  destruct (hub_download_error env), (remote w); done.
Qed.

Lemma get_seen_links_eq env w :
  get_seen_links env w = (Returned (loaded env w), extend w [EvLoad]).
Proof.
  unfold loaded, get_seen_links, hf_hub_download. unfold_M.
  destruct (hub_download_error env), (remote w); done.
Qed.

Lemma update_seen_links_eq env links w :
  update_seen_links env links w = (Returned tt, saved_world env links w).
Proof.
  unfold update_seen_links, saved_world, write_local, upload_file. unfold_M.
  destruct (hub_upload_error env); simpl; [done |].
  by rewrite <- app_assoc.
Qed.

Lemma saved_world_trace env links w :
  ∃ tail, trace (saved_world env links w) = trace w ++ EvSave links :: tail
          ∧ (tail = [] ∨ ∃ content, tail = [EvUploaded content]).
Proof.
  unfold saved_world. destruct (hub_upload_error env); simpl.
  - exists []. split; [done | by left].
  - eexists [_]. split; [done | right; by eexists].
Qed.

(** ** The shape of a cycle *)

Lemma run_pipeline_unfold env w :
  run_pipeline env w
  = match check_feeds env RSS_URLS
            {| seen_articles := loaded env w; new_links_added := false |}
            (extend w [EvLoad]) with
    | (Returned st, w') =>
        if new_links_added st
        then (Returned tt, saved_world env (seen_articles st) w')
        else (Returned tt, w')
    | (Raised e, w') => (Raised e, w')
    end.
Proof.
  unfold run_pipeline, mbind, M_bind, mret, M_ret.
  rewrite get_seen_links_eq.
  destruct (check_feeds _ _ _ _) as [[st|e] w']; [| done].
  destruct (new_links_added st); [| done]. apply update_seen_links_eq.
Qed.

Lemma run_pipeline_shape env w :
  ∃ segs o tail,
    feeds_run env {| seen_articles := loaded env w; new_links_added := false |}
      RSS_URLS segs o
    ∧ cycle_trace env w = EvLoad :: concat segs ++ tail
    ∧ match o with
      | Raised e =>
          (run_pipeline env w).1 = Raised e ∧ tail = []
          ∧ remote (run_pipeline env w).2 = remote w
      | Returned st =>
          (run_pipeline env w).1 = Returned tt
          ∧ if new_links_added st
            then (run_pipeline env w).2
                 = saved_world env (seen_articles st)
                     (extend w (EvLoad :: concat segs))
                 ∧ ∃ tail', tail = EvSave (seen_articles st) :: tail'
                            ∧ (tail' = [] ∨ ∃ content, tail' = [EvUploaded content])
            else tail = [] ∧ remote (run_pipeline env w).2 = remote w
      end.
Proof.
  unfold cycle_trace. rewrite run_pipeline_unfold.
  destruct (check_feeds_run env RSS_URLS
              {| seen_articles := loaded env w; new_links_added := false |}
              (extend w [EvLoad])) as (segs & o & Heq & Hrun).
  rewrite Heq, extend_extend. change ([EvLoad] ++ concat segs) with (EvLoad :: concat segs).
  destruct o as [st|e].
  - destruct (new_links_added st) eqn:Hadded.
    + cbn [fst snd].
      destruct (saved_world_trace env (seen_articles st)
                  (extend w (EvLoad :: concat segs))) as (tail' & Htr & Htail).
      exists segs, (Returned st), (EvSave (seen_articles st) :: tail').
      split; [done |]. split.
      * rewrite Htr. simpl. rewrite <- app_assoc. by rewrite drop_app_length.
      * split; [done |]. rewrite Hadded. split; [done |]. by exists tail'.
    + exists segs, (Returned st), []. split; [done |]. simpl. split.
      * by rewrite app_nil_r, drop_app_length.
      * split; [done |]. by rewrite Hadded.
  - exists segs, (Raised e), []. split; [done |]. simpl. split.
    + by rewrite app_nil_r, drop_app_length.
    + done.
Qed.

Lemma cycle_sent_added env w :
  sent_links (cycle_trace env w) = added_links (cycle_trace env w)
  ∧ NoDup (added_links (cycle_trace env w))
  ∧ ∀ l, l ∈ added_links (cycle_trace env w) ->
         truthy (scrape_article_text env l) = true ∧ l ∉ loaded env w.
Proof.
  destruct (run_pipeline_shape env w) as (segs & o & tail & Hrun & Htr & Ho).
  assert (Htail : sent_links tail = [] ∧ added_links tail = []).
  { destruct o as [st|e].
    - destruct Ho as [_ Ho]. destruct (new_links_added st).
      + destruct Ho as (_ & tail' & -> & [->|[content ->]]); done.
      + by destruct Ho as [-> _].
    - by destruct Ho as (_ & -> & _). }
  destruct Htail as [Hs Ha].
  destruct (feeds_run_added _ _ _ _ _ Hrun) as (Hnd & Hfresh & Hfrom & _).
  rewrite Htr. simpl. rewrite sent_links_app, added_links_app, Hs, Ha, !app_nil_r.
  split; [by eapply feeds_run_sent_added |]. split; [done |].
  intros l Hl. split; [by apply Hfrom | by apply (Hfresh l)].
Qed.

(** ** Scanning a feed whose entries are known *)

Lemma scan_entries_pass env feed pre rest st w :
  Forall (is_seen (seen_articles st)) pre ->
  scan_entries env feed (pre ++ rest) st w = scan_entries env feed rest st w.
Proof.
  induction 1 as [|e pre (l & Hl & Hin) _ IH]; [done |].
  simpl. unfold_M. rewrite Hl. by rewrite decide_True.
Qed.

Lemma scan_entries_select env feed pre e post st w l :
  Forall (is_seen (seen_articles st)) pre ->
  link e = Some l -> l ∉ seen_articles st ->
  scan_entries env feed (pre ++ e :: post) st w
  = process_entry env feed e l st w.
Proof.
  intros Hpre Hl Hnew. rewrite scan_entries_pass by done.
  simpl. unfold_M. rewrite Hl. by rewrite decide_False.
Qed.

Lemma Forall_is_seen_reverse seen es :
  Forall (is_seen seen) es -> Forall (is_seen seen) (reverse es).
Proof. intros H. by apply Forall_reverse. Qed.

(** In feed order: the entries listed after [e] are all seen, so [e] is
    the one the scan stops at. *)
Lemma check_feed_select env url st w l1 e l2 l :
  entries (feedparser_parse env url) = l1 ++ e :: l2 ->
  Forall (is_seen (seen_articles st)) l2 ->
  link e = Some l -> l ∉ seen_articles st ->
  check_feed env url st w
  = process_entry env (feedparser_parse env url) e l st (extend w [EvCheck url]).
Proof.
  intros Hes Hl2 Hl Hnew. unfold check_feed. unfold_M.
  rewrite Hes, reverse_app, reverse_cons, <- app_assoc. simpl.
  apply scan_entries_select; [by apply Forall_is_seen_reverse | done | done].
Qed.

Lemma process_entry_absent env feed e l st w t :
  title e = Some t -> truthy (scrape_article_text env l) = false ->
  process_entry env feed e l st w = (Returned st, extend w [EvScrape l]).
Proof. intros Ht Hx. unfold process_entry. unfold_M. by rewrite Ht, Hx. Qed.

Lemma process_entry_delivered env feed e l st w t source summary :
  title e = Some t -> feed_title feed = Some source ->
  truthy (scrape_article_text env l) = true ->
  summarize_text env (scrape_article_text env l) = Returned summary ->
  process_entry env feed e l st w
  = (Returned {| seen_articles := {[l]} ∪ seen_articles st;
                 new_links_added := true |},
     extend w [EvScrape l; EvSummarize l;
               EvSend l (message_to_send source t summary l)
                 (send_telegram_message env
                    (message_to_send source t summary l));
               EvAdd l]).
Proof.
  intros Ht Hs Hx Hsum. unfold process_entry. unfold_M.
  rewrite Ht, Hx, Hsum, Hs. by rewrite !extend_extend.
Qed.

Lemma process_entry_starts env feed e l st w t :
  title e = Some t ->
  ∃ tr o, process_entry env feed e l st w = (o, extend w (EvScrape l :: tr))
          ∧ count is_scrape tr = 0%nat.
Proof.
  intros Ht. unfold process_entry. unfold_M. rewrite Ht.
  destruct (truthy (scrape_article_text env l)).
  2: { by exists [], (Returned st). }
  destruct (summarize_text env (scrape_article_text env l)) as [summary|ex].
  2: { exists [EvSummarize l], (Raised ex). by rewrite extend_extend. }
  destruct (feed_title feed) as [source|].
  2: { exists [EvSummarize l], (Raised (AttributeError "title")).
       by rewrite extend_extend. }
  eexists [EvSummarize l; EvSend l _ _; EvAdd l], _.
  by rewrite !extend_extend.
Qed.

(** ** The file format *)

Example strip_spaces : strip ("  a b " +:+ newline) = "a b".
Proof. reflexivity. Qed.

(** U+00A0 and U+2003 are white space for [str.strip]. *)
Example strip_unicode_spaces :
  strip (String (ascii_of_nat 194) (String (ascii_of_nat 160) "x")
         +:+ String (ascii_of_nat 226)
               (String (ascii_of_nat 128) (String (ascii_of_nat 131) "")))
  = "x".
Proof. reflexivity. Qed.

Example file_lines_mixed_breaks :
  file_lines
    (universal_newlines
       ("a" +:+ String CR (String LF "b") +:+ String CR "c" +:+ newline +:+ "d"))
  = ["a" +:+ newline; "b" +:+ newline; "c" +:+ newline; "d"].
Proof. reflexivity. Qed.

Lemma has_linebreak_cons c l :
  has_linebreak (String c l) = false ->
  Ascii.eqb c LF = false ∧ Ascii.eqb c CR = false ∧ has_linebreak l = false.
Proof.
  simpl. intros H. apply orb_false_elim in H as [H1 H3].
  by apply orb_false_elim in H1 as [H1 H2].
Qed.

Lemma universal_newlines_line l rest :
  has_linebreak l = false ->
  universal_newlines (l +:+ newline +:+ rest)
  = l +:+ newline +:+ universal_newlines rest.
Proof.
  induction l as [|c l IH]; intros Hl.
  - done.
  - apply has_linebreak_cons in Hl as (_ & Hcr & Hl).
    change (String c l +:+ newline +:+ rest)
      with (String c (l +:+ newline +:+ rest)).
    cbn [universal_newlines]. rewrite Hcr, (IH Hl). done.
Qed.

Lemma file_lines_line l rest :
  has_linebreak l = false ->
  file_lines (l +:+ newline +:+ rest) = (l +:+ newline) :: file_lines rest.
Proof.
  induction l as [|c l IH]; intros Hl.
  - done.
  - apply has_linebreak_cons in Hl as (Hlf & _ & Hl).
    change (String c l +:+ newline +:+ rest)
      with (String c (l +:+ newline +:+ rest)).
    cbn [file_lines]. rewrite Hlf, (IH Hl). done.
Qed.

(** The file written by [update_seen_links] reads back as one line per
    link, in the order written. *)
Lemma file_lines_write_links links :
  Forall (fun l => has_linebreak l = false) links ->
  file_lines (universal_newlines (write_links links))
  = (fun l => l +:+ newline) <$> links.
Proof.
  induction 1 as [|l links Hl _ IH]; [done |].
  cbn [write_links]. rewrite universal_newlines_line, file_lines_line by done.
  by rewrite IH.
Qed.

Lemma list_ascii_of_string_app a b :
  String.list_ascii_of_string (a +:+ b)
  = String.list_ascii_of_string a ++ String.list_ascii_of_string b.
Proof. induction a as [|c a IH]; simpl; by rewrite ?IH. Qed.

Lemma rstrip_bytes_newline s : rstrip_bytes (s ++ [LF]) = rstrip_bytes s.
Proof. unfold rstrip_bytes. by rewrite reverse_snoc. Qed.

Lemma strip_line l : strip (l +:+ newline) = strip l.
Proof.
  unfold strip. rewrite list_ascii_of_string_app.
  change (String.list_ascii_of_string newline) with [LF].
  by rewrite rstrip_bytes_newline.
Qed.

Lemma parse_links_write_links links :
  Forall clean links -> parse_links (write_links links) = list_to_set links.
Proof.
  intros Hclean. unfold parse_links.
  rewrite file_lines_write_links
    by (eapply Forall_impl; [exact Hclean | by intros l [? _]]).
  rewrite <- list_fmap_compose. f_equal.
  rewrite <- (list_fmap_id links) at 2. apply Forall_fmap_ext.
  eapply Forall_impl; [exact Hclean |]. intros l [_ Hl]. simpl.
  by rewrite strip_line.
Qed.

Lemma load_after_save env links w :
  hub_upload_error env = None -> hub_download_error env = None ->
  set_order env links ≡ₚ elements links ->
  (∀ l, l ∈ links -> clean l) ->
  remote (saved_world env links w) = Some (write_links (set_order env links))
  ∧ loaded env (saved_world env links w) = links.
Proof.
  intros Hup Hdown Hperm Hclean. unfold saved_world. rewrite Hup. simpl.
  split; [done |]. rewrite loaded_cases, Hdown. simpl.
  rewrite parse_links_write_links.
  - rewrite Hperm. apply list_to_set_elements_L.
  - apply Forall_forall. intros l Hl. apply Hclean.
    rewrite Hperm in Hl. by apply elem_of_elements in Hl.
Qed.

(** ** Links that a cycle touches *)

Lemma untouched_app l tr1 tr2 :
  untouched l (tr1 ++ tr2) ↔ untouched l tr1 ∧ untouched l tr2.
Proof.
  unfold untouched. split.
  - intros H. split; intros ev Hev; apply H, elem_of_app; [by left | by right].
  - intros [H1 H2] ev Hev. apply elem_of_app in Hev as [Hev|Hev]; eauto.
Qed.

Lemma untouched_cons l ev tr :
  untouched l (ev :: tr) ↔ event_link ev ≠ Some l ∧ untouched l tr.
Proof.
  unfold untouched. split.
  - intros H. split; [apply H; left |]. intros ev' Hev. apply H. by right.
  - intros [H1 H2] ev' Hev. apply elem_of_cons in Hev as [->|Hev]; eauto.
Qed.

Lemma untouched_nil l : untouched l [].
Proof. intros ev Hev. by apply elem_of_nil in Hev. Qed.

Lemma segment_touched env es st tr o ev l :
  segment env es st tr o -> ev ∈ tr -> event_link ev = Some l ->
  (l ∉ seen_articles st) ∧ ∃ en, en ∈ es ∧ link en = Some l.
Proof.
  destruct 1; intros Hin Hev;
    repeat (apply elem_of_cons in Hin as [->|Hin];
            [simpl in Hev; injection Hev as <-; done |]);
    by apply elem_of_nil in Hin.
Qed.

Lemma segment_seen_mono env es st tr st' :
  segment env es st tr (Returned st') -> seen_articles st ⊆ seen_articles st'.
Proof.
  intros H. destruct (segment_returned _ _ _ _ _ H) as [-> _].
  apply union_subseteq_r.
Qed.

Lemma feeds_run_touched env st urls segs o ev l :
  feeds_run env st urls segs o -> ev ∈ concat segs -> event_link ev = Some l ->
  (l ∉ seen_articles st)
  ∧ ∃ url en, url ∈ urls ∧ en ∈ entries (feedparser_parse env url)
              ∧ link en = Some l.
Proof.
  induction 1 as [st|st url rest tr e Hseg|st url rest tr st' segs o Hseg _ IH];
    simpl; intros Hin Hev.
  - by apply elem_of_nil in Hin.
  - rewrite app_nil_r in Hin. apply elem_of_cons in Hin as [->|Hin]; [done |].
    destruct (segment_touched _ _ _ _ _ _ _ Hseg Hin Hev) as (? & en & ? & ?).
    split; [done |]. exists url, en. split; [left | done].
  - apply elem_of_cons in Hin as [->|Hin]; [done |].
    apply elem_of_app in Hin as [Hin|Hin].
    + destruct (segment_touched _ _ _ _ _ _ _ Hseg Hin Hev) as (? & en & ? & ?).
      split; [done |]. exists url, en. split; [left | done].
    + destruct (IH Hin Hev) as (Hnew & u & en & Hu & Hen & Hk).
      split.
      * intros Hseen. apply Hnew. by apply (segment_seen_mono _ _ _ _ _ Hseg).
      * exists u, en. split; [by right | done].
Qed.

(** ** Feeds one after the other *)

Lemma check_feeds_app env us1 us2 st w :
  check_feeds env (us1 ++ us2) st w
  = match check_feeds env us1 st w with
    | (Returned st', w') => check_feeds env us2 st' w'
    | (Raised e, w') => (Raised e, w')
    end.
Proof.
  revert st w. induction us1 as [|u us1 IH]; intros st w; simpl; [done |].
  unfold_M. destruct (check_feed env u st w) as [[st1|e] w1]; [| done].
  apply IH.
Qed.

(** No step is taken for a link that no feed among [urls] carries. *)
Lemma feeds_run_absent env st urls segs o l :
  feeds_run env st urls segs o ->
  (∀ url en, url ∈ urls -> en ∈ entries (feedparser_parse env url) ->
             link en ≠ Some l) ->
  untouched l (concat segs)
  ∧ ∀ st', o = Returned st' -> l ∈ seen_articles st' -> l ∈ seen_articles st.
Proof.
  intros Hrun Habsent.
  destruct (feeds_run_added _ _ _ _ _ Hrun) as (_ & _ & Hfrom & Hret).
  split.
  - intros ev Hin Hev. destruct (feeds_run_touched _ _ _ _ _ _ l Hrun Hin Hev)
      as (_ & u & en & Hu & Hen & Hk). by apply (Habsent u en).
  - intros st' Ho. destruct (Hret st' Ho) as [Hseen _].
    rewrite Hseen. intros Hin. apply elem_of_union in Hin as [Hin|Hin]; [| done].
    apply elem_of_list_to_set in Hin.
    destruct (Hfrom l Hin) as (_ & u & en & Hu & Hen & Hk).
    by destruct (Habsent u en Hu Hen).
Qed.

Lemma feeds_run_mono env st urls segs st' :
  feeds_run env st urls segs (Returned st') ->
  seen_articles st ⊆ seen_articles st'
  ∧ (new_links_added st = true -> new_links_added st' = true).
Proof.
  intros Hrun.
  destruct (feeds_run_added _ _ _ _ _ Hrun) as (_ & _ & _ & Hret).
  destruct (Hret st' eq_refl) as [Hseen Hflag].
  split; [rewrite Hseen; apply union_subseteq_r |].
  intros Ht. by rewrite Hflag, Ht.
Qed.

(** ** A cycle that returns *)

Lemma RSS_URLS_NoDup : NoDup RSS_URLS.
Proof. apply (bool_decide_unpack _). by vm_compute. Qed.

Lemma process_entry_returned env feed e l st w st' w' :
  process_entry env feed e l st w = (Returned st', w') ->
  truthy (scrape_article_text env l) = true ->
  ∃ t source summary,
    title e = Some t ∧ feed_title feed = Some source
    ∧ summarize_text env (scrape_article_text env l) = Returned summary.
Proof.
  unfold process_entry. unfold_M. intros Hrun Htext. rewrite Htext in Hrun.
  destruct (title e) as [t|]; [| discriminate].
  destruct (summarize_text env (scrape_article_text env l)) as [summary|ex];
    [| discriminate].
  destruct (feed_title feed) as [source|]; [| discriminate].
  by exists t, source, summary.
Qed.

(** When the loop over the feeds returns, a feed whose scan stops at an
    entry with a text has that entry delivered. *)
Lemma check_feeds_target env us1 url us2 st w st' w' l1 e l2 l :
  check_feeds env (us1 ++ url :: us2) st w = (Returned st', w') ->
  entries (feedparser_parse env url) = l1 ++ e :: l2 ->
  Forall (is_seen (seen_articles st)) l2 ->
  link e = Some l -> l ∉ seen_articles st ->
  truthy (scrape_article_text env l) = true ->
  (∀ u en, u ∈ us1 -> en ∈ entries (feedparser_parse env u) -> link en ≠ Some l) ->
  ∃ segs1 m log segs2 sta,
    w' = extend w (concat segs1
                   ++ [EvCheck url; EvScrape l; EvSummarize l; EvSend l m log;
                       EvAdd l]
                   ++ concat segs2)
    ∧ feeds_run env st us1 segs1 (Returned sta)
    ∧ feeds_run env {| seen_articles := {[l]} ∪ seen_articles sta;
                       new_links_added := true |} us2 segs2 (Returned st').
Proof.
  intros Hrun Hes Hl2 Hl Hnew Htext Habsent.
  rewrite check_feeds_app in Hrun.
  destruct (check_feeds_run env us1 st w) as (segs1 & o1 & Heq1 & Hrun1).
  rewrite Heq1 in Hrun. destruct o1 as [sta|ex]; [| discriminate].
  destruct (feeds_run_absent _ _ _ _ _ l Hrun1 Habsent) as [_ Hback].
  destruct (feeds_run_mono _ _ _ _ _ Hrun1) as (Hmono & _).
  assert (Hnew' : l ∉ seen_articles sta) by (intros Hin; by apply Hnew, (Hback sta)).
  assert (Hl2' : Forall (is_seen (seen_articles sta)) l2).
  { eapply Forall_impl; [exact Hl2 |]. intros en (l0 & Hk & Hin).
    exists l0. split; [done | by apply Hmono]. }
  cbn [check_feeds] in Hrun. unfold mbind, M_bind in Hrun.
  rewrite (check_feed_select env url sta _ l1 e l2 l Hes Hl2' Hl Hnew') in Hrun.
  destruct (process_entry env (feedparser_parse env url) e l sta
              (extend (extend w (concat segs1)) [EvCheck url]))
    as [[stb|ex] wb] eqn:Hentry; [| discriminate].
  destruct (process_entry_returned _ _ _ _ _ _ _ _ Hentry Htext)
    as (t & source & summary & Ht & Hsource & Hsum).
  rewrite (process_entry_delivered env _ e l sta _ t source summary Ht Hsource
             Htext Hsum) in Hentry.
  injection Hentry as <- <-.
  destruct (check_feeds_run env us2
              {| seen_articles := {[l]} ∪ seen_articles sta;
                 new_links_added := true |}
              (extend (extend (extend w (concat segs1)) [EvCheck url])
                 [EvScrape l; EvSummarize l;
                  EvSend l (message_to_send source t summary l)
                    (send_telegram_message env
                       (message_to_send source t summary l));
                  EvAdd l])) as (segs2 & o2 & Heq2 & Hrun2).
  rewrite Heq2 in Hrun. destruct o2 as [st2|ex]; [| discriminate].
  injection Hrun as <- <-.
  exists segs1, (message_to_send source t summary l),
    (send_telegram_message env (message_to_send source t summary l)),
    segs2, sta.
  split; [| by split]. by rewrite !extend_extend.
Qed.

Lemma cycle_trace_of_feeds env w o tr :
  check_feeds env RSS_URLS
    {| seen_articles := loaded env w; new_links_added := false |}
    (extend w [EvLoad]) = (o, extend w (EvLoad :: tr)) ->
  ∃ tail, cycle_trace env w = EvLoad :: tr ++ tail
          ∧ (∀ ev, ev ∈ tail -> event_link ev = None)
          ∧ ∀ st, o = Returned st ->
              (run_pipeline env w).1 = Returned tt
              ∧ (new_links_added st = true ->
                 (run_pipeline env w).2
                 = saved_world env (seen_articles st) (extend w (EvLoad :: tr))).
Proof.
  intros Heq. unfold cycle_trace. rewrite run_pipeline_unfold, Heq.
  destruct o as [st|e].
  - destruct (new_links_added st) eqn:Hadded.
    + destruct (saved_world_trace env (seen_articles st)
                  (extend w (EvLoad :: tr))) as (tail' & Htr & Htail).
      exists (EvSave (seen_articles st) :: tail'). cbn [fst snd].
      rewrite Htr. cbn [extend trace]. rewrite <- app_assoc, drop_app_length.
      split; [done |]. split.
      * intros ev Hev. apply elem_of_cons in Hev as [->|Hev]; [done |].
        destruct Htail as [->|[content ->]].
        -- by apply elem_of_nil in Hev.
        -- apply list_elem_of_singleton in Hev. by subst.
      * intros st0 [= <-]. done.
    + exists []. cbn [fst snd extend trace]. rewrite app_nil_r, drop_app_length.
      split; [done |]. split; [intros ev Hev; by apply elem_of_nil in Hev |].
      intros st0 [= <-]. split; [done |]. rewrite Hadded. discriminate.
  - exists []. cbn [fst snd extend trace]. rewrite app_nil_r, drop_app_length.
    split; [done |]. split; [intros ev Hev; by apply elem_of_nil in Hev |].
    intros st0 [=].
Qed.

(** Whatever a cycle does for a link, the link was not in the loaded set
    and is carried by an entry of a configured feed. *)
Lemma cycle_touched_unseen env w ev l :
  ev ∈ cycle_trace env w -> event_link ev = Some l ->
  (l ∉ loaded env w)
  ∧ ∃ url en, url ∈ RSS_URLS ∧ en ∈ entries (feedparser_parse env url)
              ∧ link en = Some l.
Proof.
  destruct (run_pipeline_shape env w) as (segs & o & tail & Hrun & Htr & Ho).
  rewrite Htr. intros Hin Hev.
  apply elem_of_cons in Hin as [->|Hin]; [done |].
  apply elem_of_app in Hin as [Hin|Hin].
  - by apply (feeds_run_touched _ _ _ _ _ _ _ Hrun Hin Hev).
  - exfalso. destruct o as [st|e].
    + destruct Ho as [_ Ho]. destruct (new_links_added st).
      * destruct Ho as (_ & tail' & -> & Htail).
        apply elem_of_cons in Hin as [->|Hin]; [done |].
        destruct Htail as [->|[content ->]].
        -- by apply elem_of_nil in Hin.
        -- apply list_elem_of_singleton in Hin. by subst.
      * destruct Ho as [-> _]. by apply elem_of_nil in Hin.
    + destruct Ho as (_ & -> & _). by apply elem_of_nil in Hin.
Qed.

(** In a cycle that returns, the entry at which the scan of a feed stops
    is processed, if it has a text and no other feed carries its link;
    and no step is taken for another link that no other feed carries. *)
Lemma cycle_target env w url l1 e l2 l :
  (run_pipeline env w).1 = Returned tt ->
  url ∈ RSS_URLS ->
  entries (feedparser_parse env url) = l1 ++ e :: l2 ->
  Forall (is_seen (loaded env w)) l2 ->
  link e = Some l -> l ∉ loaded env w ->
  truthy (scrape_article_text env l) = true ->
  (∀ u en, u ∈ RSS_URLS -> u ≠ url ->
           en ∈ entries (feedparser_parse env u) -> link en ≠ Some l) ->
  processed l (cycle_trace env w)
  ∧ ∀ l', l' ≠ l ->
      (∀ u en, u ∈ RSS_URLS -> u ≠ url ->
               en ∈ entries (feedparser_parse env u) -> link en ≠ Some l') ->
      untouched l' (cycle_trace env w).
Proof.
  intros Hout Hurl Hes Hl2 Hl Hnew Htext Habsent.
  destruct (list_elem_of_split_l _ _ Hurl) as (us1 & us2 & Hsplit & Hnot1).
  assert (Hnot2 : url ∉ us2).
  { pose proof RSS_URLS_NoDup as Hnd. rewrite Hsplit in Hnd.
    apply NoDup_app in Hnd as (_ & _ & Hnd). by apply NoDup_cons in Hnd as [? _]. }
  assert (Hin1 : ∀ u, u ∈ us1 -> u ∈ RSS_URLS ∧ u ≠ url).
  { intros u Hu. split; [rewrite Hsplit; apply elem_of_app; by left |].
    by intros ->. }
  assert (Hin2 : ∀ u, u ∈ us2 -> u ∈ RSS_URLS ∧ u ≠ url).
  { intros u Hu. split; [rewrite Hsplit; apply elem_of_app; right; by right |].
    by intros ->. }
  set (st0 := {| seen_articles := loaded env w; new_links_added := false |}).
  destruct (check_feeds env RSS_URLS st0 (extend w [EvLoad]))
    as [[st'|ex] w'] eqn:Heq.
  2: { rewrite run_pipeline_unfold in Hout. fold st0 in Hout.
       rewrite Heq in Hout. discriminate. }
  pose proof Heq as Heq0. rewrite Hsplit in Heq.
  destruct (check_feeds_target env us1 url us2 st0 (extend w [EvLoad]) st' w'
              l1 e l2 l Heq Hes Hl2 Hl Hnew Htext)
    as (segs1 & m & log & segs2 & sta & Hw' & Hrun1 & Hrun2).
  { intros u en Hu. destruct (Hin1 u Hu). by apply Habsent. }
  rewrite Hw', extend_extend in Heq0.
  change ([EvLoad] ++ ?x) with (EvLoad :: x) in Heq0.
  destruct (cycle_trace_of_feeds env w _ _ Heq0) as (tail & Htr & Htail & _).
  split.
  - rewrite Htr. unfold processed.
    assert (Hsub : ∀ ev, ev ∈ [EvCheck url; EvScrape l; EvSummarize l;
                               EvSend l m log; EvAdd l] ->
                         ev ∈ EvLoad :: (concat segs1
                           ++ [EvCheck url; EvScrape l; EvSummarize l;
                               EvSend l m log; EvAdd l] ++ concat segs2) ++ tail).
    { intros ev Hev. right. apply elem_of_app. left. apply elem_of_app. right.
      apply elem_of_app. by left. }
    split; [apply Hsub; set_solver |]. split; [apply Hsub; set_solver |].
    split; [exists m, log; apply Hsub; set_solver | apply Hsub; set_solver].
  - intros l' Hne Habsent'.
    destruct (feeds_run_absent _ _ _ _ _ l' Hrun1) as [Hun1 _].
    { intros u en Hu. destruct (Hin1 u Hu). by apply Habsent'. }
    destruct (feeds_run_absent _ _ _ _ _ l' Hrun2) as [Hun2 _].
    { intros u en Hu. destruct (Hin2 u Hu). by apply Habsent'. }
    rewrite Htr. apply untouched_cons. split; [done |].
    apply untouched_app. split.
    + apply untouched_app. split; [done |]. apply untouched_app. split; [| done].
      repeat (apply untouched_cons; split; [simpl; congruence |]).
      apply untouched_nil.
    + intros ev Hev. by rewrite (Htail ev Hev).
Qed.

Lemma run_pipeline_trace env w :
  trace (run_pipeline env w).2 = trace w ++ cycle_trace env w.
Proof.
  unfold cycle_trace. rewrite run_pipeline_unfold.
  destruct (check_feeds_run env RSS_URLS
              {| seen_articles := loaded env w; new_links_added := false |}
              (extend w [EvLoad])) as (segs & o & Heq & _).
  rewrite Heq, extend_extend. destruct o as [st|e]; [| simpl; by rewrite drop_app_length].
  destruct (new_links_added st); [| simpl; by rewrite drop_app_length].
  destruct (saved_world_trace env (seen_articles st)
              (extend w ([EvLoad] ++ concat segs))) as (tail & Htr & _).
  cbn [snd]. rewrite Htr. simpl. rewrite <- app_assoc. by rewrite drop_app_length.
Qed.

Lemma cycle_one_load env w : count is_load (cycle_trace env w) = 1%nat.
Proof.
  destruct (run_pipeline_shape env w) as (segs & o & tail & Hrun & Htr & Ho).
  rewrite Htr. change (EvLoad :: ?x) with ([EvLoad] ++ x). rewrite !count_app.
  assert (H1 : count is_load (concat segs) = 0%nat).
  { apply count_zero.
    intros ev Hev. destruct (feeds_run_events _ _ _ _ _ Hrun ev Hev) as [[u ->]|He].
    - done.
    - by destruct ev. }
  assert (H2 : count is_load tail = 0%nat).
  { destruct o as [st|e].
    - destruct Ho as [_ Ho]. destruct (new_links_added st).
      + by destruct Ho as (_ & tail' & -> & [->|[content ->]]).
      + by destruct Ho as [-> _].
    - by destruct Ho as (_ & -> & _). }
  by rewrite H1, H2.
Qed.

(** ** The scheduler loop *)

Lemma loop_body_returned env w w1 :
  run_pipeline env w = (Returned tt, w1) ->
  loop_body env w = (Returned tt, extend w1 [EvSleep 1800]).
Proof. intros H. unfold loop_body. unfold_M. by rewrite H. Qed.

Lemma loop_body_raised env w e w1 :
  run_pipeline env w = (Raised e, w1) ->
  loop_body env w = (Returned tt, extend w1 [EvError e; EvSleep 60]).
Proof.
  intros H. unfold loop_body. unfold_M. rewrite H. by rewrite extend_extend.
Qed.

Lemma loop_body_trace env w :
  ∃ tail, loop_body env w
          = (Returned tt, extend (run_pipeline env w).2 tail)
          ∧ count is_load tail = 0%nat.
Proof.
  destruct (run_pipeline env w) as [[[]|e] w1] eqn:H.
  - exists [EvSleep 1800]. by rewrite (loop_body_returned _ _ _ H).
  - exists [EvError e; EvSleep 60]. by rewrite (loop_body_raised _ _ _ _ H).
Qed.

Lemma background_task_cons env rest w :
  background_task (env :: rest) w = background_task rest (loop_body env w).2.
Proof.
  cbn [background_task]. unfold mbind, M_bind.
  destruct (loop_body_trace env w) as (tail & -> & _). done.
Qed.

Lemma background_task_app envs1 envs2 w :
  background_task (envs1 ++ envs2) w
  = background_task envs2 (background_task envs1 w).2.
Proof.
  revert w. induction envs1 as [|env envs1 IH]; intros w; [done |].
  rewrite <- app_comm_cons, !background_task_cons. apply IH.
Qed.

Lemma background_task_runs envs w :
  ∃ tr, background_task envs w
        = (Returned tt, (background_task envs w).2)
        ∧ trace (background_task envs w).2 = trace w ++ tr
        ∧ count is_load tr = length envs.
Proof.
  revert w. induction envs as [|env rest IH]; intros w.
  - exists []. simpl. by rewrite app_nil_r.
  - rewrite background_task_cons.
    destruct (loop_body_trace env w) as (tail & Hbody & Htail). rewrite Hbody.
    cbn [snd]. destruct (IH (extend (run_pipeline env w).2 tail))
      as (tr & Heq & Htr & Hcount).
    exists (cycle_trace env w ++ tail ++ tr). split; [done |].
    split.
    + rewrite Htr. cbn [trace extend]. rewrite run_pipeline_trace.
      by rewrite <- !app_assoc.
    + rewrite !count_app, cycle_one_load, Htail, Hcount. done.
Qed.

(** * The claims *)

Lemma clean_example_links :
  clean "https://example.org/old" ∧ clean "https://example.org/mid"
  ∧ clean "https://example.org/new".
Proof. repeat split; by vm_compute. Qed.

Lemma working_env_other_feeds first u en :
  u ≠ first_url -> en ∉ entries (feedparser_parse (working_env first) u).
Proof.
  intros Hne Hen. simpl in Hen.
  destruct (String.eqb_spec u first_url); [done | by apply elem_of_nil in Hen].
Qed.

Lemma loaded_fresh env : loaded env (initial_world None) = ∅.
Proof. rewrite loaded_cases. by destruct (hub_download_error env). Qed.

(** C2, as stated, fails: for a feed that lists its entries oldest to
    newest, [old; mid; new], none of them seen, the cycle scrapes,
    summarizes, sends and adds [new], the newest, and does nothing for
    [old]. *)
Lemma oldest_first_feed_selects_newest :
  let env := working_env oldest_first_feed in
  let tr := cycle_trace env (initial_world None) in
  entries (feedparser_parse env first_url) = [story_old; story_mid; story_new]
  ∧ published story_old < published story_mid < published story_new
  ∧ loaded env (initial_world None) = ∅
  ∧ sent_links tr = ["https://example.org/new"]
  ∧ added_links tr = ["https://example.org/new"]
  ∧ EvScrape "https://example.org/old" ∉ tr.
Proof.
  intros env tr. split; [reflexivity |]. split; [done |].
  split; [apply loaded_fresh |]. split; [by vm_compute |].
  split; [by vm_compute |].
  intros Hin.
  assert (H : "https://example.org/old" ∈ omap event_link tr).
  { apply list_elem_of_omap. by exists (EvScrape "https://example.org/old"). }
  vm_compute in H.
  repeat (apply elem_of_cons in H as [H|H]; [discriminate |]).
  by apply elem_of_nil in H.
Qed.

(** C2, amended: the scan starts from the end of the feed's list, so the
    entry selected is the unseen entry listed last: it is scraped first
    and no other entry of the feed is scraped in that cycle.  When the
    feed lists its entries newest first, that entry is the oldest unseen
    one. *)
Theorem last_listed_unseen_is_selected env url st w l1 e l2 l t :
  entries (feedparser_parse env url) = l1 ++ e :: l2 ->
  Forall (is_seen (seen_articles st)) l2 ->
  link e = Some l -> l ∉ seen_articles st -> title e = Some t ->
  (∃ tr o, check_feed env url st w
           = (o, extend w (EvCheck url :: EvScrape l :: tr))
           ∧ count is_scrape tr = 0%nat)
  ∧ (newest_first (entries (feedparser_parse env url)) ->
     ∀ e' l', e' ∈ entries (feedparser_parse env url) ->
              link e' = Some l' -> l' ∉ seen_articles st ->
              published e ≤ published e').
Proof.
  intros Hes Hl2 Hl Hnew Ht. split.
  - rewrite (check_feed_select env url st w l1 e l2 l Hes Hl2 Hl Hnew).
    destruct (process_entry_starts env (feedparser_parse env url) e l st
                (extend w [EvCheck url]) t Ht) as (tr & o & Heq & Hcount).
    exists tr, o. by rewrite Heq, extend_extend.
  - rewrite Hes. intros Hsorted e' l' Hin Hl' Hnew'.
    apply elem_of_app in Hin as [Hin|Hin].
    + apply (StronglySorted_app_1_elem_of _ l1 (e :: l2) e' e Hsorted Hin).
      left.
    + apply elem_of_cons in Hin as [->|Hin]; [done |].
      rewrite Forall_forall in Hl2. destruct (Hl2 e' Hin) as (l0 & Hk & Hseen).
      congruence.
Qed.

Lemma newest_first_feed_sorted : newest_first (entries newest_first_feed).
Proof. repeat constructor; done. Qed.

(** C2 amended, on a feed listed newest first: [old] is selected. *)
Lemma last_listed_unseen_is_selected_witness :
  let env := working_env newest_first_feed in
  let st := {| seen_articles := ∅; new_links_added := false |} in
  (∃ tr o, check_feed env first_url st (initial_world None)
           = (o, extend (initial_world None)
                   (EvCheck first_url :: EvScrape "https://example.org/old" :: tr))
           ∧ count is_scrape tr = 0%nat)
  ∧ ∀ e' l', e' ∈ entries (feedparser_parse env first_url) ->
             link e' = Some l' -> l' ∉ seen_articles st ->
             published story_old ≤ published e'.
Proof.
  intros env st.
  destruct (last_listed_unseen_is_selected env first_url st (initial_world None)
              [story_new; story_mid] story_old [] "https://example.org/old" "Old")
    as [Hsel Hold].
  - reflexivity.
  - constructor.
  - reflexivity.
  - apply not_elem_of_empty.
  - reflexivity.
  - split; [exact Hsel |]. apply Hold. apply newest_first_feed_sorted.
Defined.

(** C3: in every cycle, whether it completes or is cut short by an
    exception, a link is added to the seen set exactly when a notification
    for it was attempted; an attempt that failed still adds the link; and
    the set handed to the store holds every link added. *)
Theorem added_iff_notification_attempted env w :
  (∀ l, EvAdd l ∈ cycle_trace env w
        ↔ ∃ m log, EvSend l m log ∈ cycle_trace env w)
  ∧ (∀ l m log, log ≠ SentSuccessfully ->
                EvSend l m log ∈ cycle_trace env w ->
                EvAdd l ∈ cycle_trace env w)
  ∧ (∀ links l, EvSave links ∈ cycle_trace env w ->
                EvAdd l ∈ cycle_trace env w -> l ∈ links).
Proof.
  destruct (cycle_sent_added env w) as (Heq & _ & _).
  assert (Hiff : ∀ l, EvAdd l ∈ cycle_trace env w
                      ↔ ∃ m log, EvSend l m log ∈ cycle_trace env w).
  { intros l. by rewrite <- elem_of_added_links, <- elem_of_sent_links, Heq. }
  split; [done |]. split.
  - intros l m log _ Hsend. apply Hiff. by exists m, log.
  - intros links l Hsave Hadd. apply elem_of_added_links in Hadd.
    destruct (run_pipeline_shape env w) as (segs & o & tail & Hrun & Htr & Ho).
    rewrite Htr in Hsave, Hadd.
    destruct (feeds_run_added _ _ _ _ _ Hrun) as (_ & _ & _ & Hret).
    apply elem_of_cons in Hsave as [Hsave|Hsave]; [discriminate |].
    apply elem_of_app in Hsave as [Hsave|Hsave].
    { destruct (feeds_run_events _ _ _ _ _ Hrun _ Hsave) as [[u Hu]|Hu];
        discriminate. }
    destruct o as [st|e].
    2: { destruct Ho as (_ & -> & _). by apply elem_of_nil in Hsave. }
    destruct Ho as [_ Ho]. destruct (new_links_added st).
    2: { destruct Ho as [-> _]. by apply elem_of_nil in Hsave. }
    destruct Ho as (_ & tail' & -> & Htail).
    assert (Hlinks : links = seen_articles st).
    { apply elem_of_cons in Hsave as [Hsave|Hsave]; [congruence |].
      destruct Htail as [->|[content ->]].
      - by apply elem_of_nil in Hsave.
      - apply list_elem_of_singleton in Hsave. discriminate. }
    subst links. destruct (Hret st eq_refl) as [-> _].
    apply elem_of_union_l, elem_of_list_to_set.
    change (EvLoad :: ?x) with ([EvLoad] ++ x) in Hadd.
    rewrite !added_links_app in Hadd. simpl in Hadd.
    apply elem_of_app in Hadd as [Hadd|Hadd]; [done |].
    destruct Htail as [->|[content ->]]; by apply elem_of_nil in Hadd.
Qed.

(** A run in which Telegram cannot be reached: the attempt is logged as
    failed, and the link is added and uploaded all the same. *)
Lemma failed_delivery_is_recorded_as_seen :
  let w' := (run_pipeline unreachable_telegram_env (initial_world None)).2 in
  sent_links (trace w') = ["https://example.org/old"]
  ∧ (∃ m, EvSend "https://example.org/old" m FailedToSend ∈ trace w')
  ∧ EvAdd "https://example.org/old" ∈ trace w'
  ∧ remote w' = Some ("https://example.org/old" +:+ newline).
Proof.
  intros w'. split; [by vm_compute |]. split; [| split; [| by vm_compute]].
  - eexists. vm_compute. do 4 right. left.
  - vm_compute. do 5 right. left.
Qed.

(** C10: within one cycle no link has two notification attempts,
    whatever the feeds hold in common. *)
Theorem one_notification_per_link env w : NoDup (sent_links (cycle_trace env w)).
Proof.
  destruct (cycle_sent_added env w) as (Heq & Hnd & _). by rewrite Heq.
Qed.

(** C6: when the extractor returns nothing for the entry the scan stops
    at, the feed's part of the cycle is that one call: the seen set and
    the flag are unchanged and no other entry of the feed is tried.  No
    cycle in that environment adds the link. *)
Theorem extraction_absent_abandons_feed env url st w l1 e l2 l t :
  entries (feedparser_parse env url) = l1 ++ e :: l2 ->
  Forall (is_seen (seen_articles st)) l2 ->
  link e = Some l -> l ∉ seen_articles st -> title e = Some t ->
  truthy (scrape_article_text env l) = false ->
  check_feed env url st w = (Returned st, extend w [EvCheck url; EvScrape l])
  ∧ ∀ w0, EvAdd l ∉ cycle_trace env w0.
Proof.
  intros Hes Hl2 Hl Hnew Ht Htext. split.
  - rewrite (check_feed_select env url st w l1 e l2 l Hes Hl2 Hl Hnew).
    rewrite (process_entry_absent env _ e l st _ t Ht Htext).
    by rewrite extend_extend.
  - intros w0 Hadd. apply elem_of_added_links in Hadd.
    destruct (cycle_sent_added env w0) as (_ & _ & Hfrom).
    destruct (Hfrom l Hadd) as [Htrue _]. congruence.
Qed.

(** C6 on a feed with three unseen entries and an extractor that gives
    nothing: only the last listed one is tried. *)
Lemma extraction_absent_abandons_feed_witness :
  let st := {| seen_articles := ∅; new_links_added := false |} in
  check_feed no_text_env first_url st (initial_world None)
  = (Returned st,
     extend (initial_world None)
       [EvCheck first_url; EvScrape "https://example.org/old"])
  ∧ ∀ w0, EvAdd "https://example.org/old" ∉ cycle_trace no_text_env w0.
Proof.
  intros st.
  apply (extraction_absent_abandons_feed no_text_env first_url st
           (initial_world None) [story_new; story_mid] story_old []
           "https://example.org/old" "Old").
  - reflexivity.
  - constructor.
  - reflexivity.
  - apply not_elem_of_empty.
  - reflexivity.
  - reflexivity.
Defined.

(** C5, as stated, fails: a link that ends in a space is written with
    the space and read back without it, so the set loaded differs from
    the set saved. *)
Lemma padded_link_is_not_read_back :
  let env := working_env empty_feed in
  let w1 := (update_seen_links env {[padded_link]} (initial_world None)).2 in
  remote w1 = Some (padded_link +:+ newline)
  ∧ (get_seen_links env w1).1 = Returned {["https://example.org/a"]}
  ∧ ({["https://example.org/a"]} : gset string) ≠ {[padded_link]}.
Proof.
  intros env w1. split; [by vm_compute |]. split; [by vm_compute |].
  intros Heq.
  assert (Hin : padded_link ∈ ({[padded_link]} : gset string))
    by (by apply elem_of_singleton).
  rewrite <- Heq in Hin. apply elem_of_singleton in Hin. discriminate.
Qed.

(** C5, amended: when upload and download succeed and every link of the
    set is free of line breaks and of white space at its ends, saving
    then loading gives the set back, whatever the order in which the set
    is written.  The file written holds the links one per line and
    becomes the remote file, whatever the remote file was. *)
Theorem save_then_load_of_clean_links env links w :
  hub_upload_error env = None -> hub_download_error env = None ->
  set_order env links ≡ₚ elements links ->
  (∀ l, l ∈ links -> clean l) ->
  let w1 := (update_seen_links env links w).2 in
  (update_seen_links env links w).1 = Returned tt
  ∧ remote w1 = Some (write_links (set_order env links))
  ∧ file_lines (universal_newlines (write_links (set_order env links)))
    = (fun l => l +:+ newline) <$> set_order env links
  ∧ get_seen_links env w1 = (Returned links, extend w1 [EvLoad]).
Proof.
  intros Hup Hdown Hperm Hclean w1. unfold w1.
  rewrite update_seen_links_eq. cbn [fst snd].
  destruct (load_after_save env links w Hup Hdown Hperm Hclean) as [Hremote Hload].
  split; [done |]. split; [done |]. split.
  - apply file_lines_write_links, Forall_forall. intros l Hl.
    rewrite Hperm in Hl. apply elem_of_elements in Hl. by destruct (Hclean l Hl).
  - by rewrite get_seen_links_eq, Hload.
Qed.

(** C5 amended, on a set of two links and a remote file that held
    something else. *)
Lemma save_then_load_of_clean_links_witness :
  let env := working_env empty_feed in
  let links : gset string :=
    {["https://example.org/old"; "https://example.org/new"]} in
  let w := initial_world (Some ("https://example.org/mid" +:+ newline)) in
  let w1 := (update_seen_links env links w).2 in
  (update_seen_links env links w).1 = Returned tt
  ∧ remote w1 = Some (write_links (set_order env links))
  ∧ file_lines (universal_newlines (write_links (set_order env links)))
    = (fun l => l +:+ newline) <$> set_order env links
  ∧ get_seen_links env w1 = (Returned links, extend w1 [EvLoad]).
Proof.
  intros env links w.
  apply (save_then_load_of_clean_links env links w).
  - reflexivity.
  - reflexivity.
  - reflexivity.
  - intros l Hl. destruct clean_example_links as (Ho & _ & Hn).
    apply elem_of_union in Hl as [Hl|Hl]; apply elem_of_singleton in Hl;
      by subst l.
Defined.

(** C8: when the remote file does not exist, or the download fails, the
    load returns the empty set; and no load raises. *)
Theorem load_failure_gives_empty_set env w :
  remote w = None ∨ is_Some (hub_download_error env) ->
  get_seen_links env w = (Returned ∅, extend w [EvLoad])
  ∧ ∀ env' w', ∃ links, (get_seen_links env' w').1 = Returned links.
Proof.
  intros Hfail. split.
  - rewrite get_seen_links_eq, loaded_cases.
    destruct Hfail as [->|[e ->]]; [| done].
    by destruct (hub_download_error env).
  - intros env' w'. rewrite get_seen_links_eq. by eexists.
Qed.

(** C8 on a first run: nothing was uploaded yet. *)
Lemma load_failure_gives_empty_set_witness :
  get_seen_links (working_env empty_feed) (initial_world None)
  = (Returned ∅, extend (initial_world None) [EvLoad])
  ∧ ∀ env' w', ∃ links, (get_seen_links env' w').1 = Returned links.
Proof.
  apply (load_failure_gives_empty_set (working_env empty_feed)
           (initial_world None)).
  left. reflexivity.
Defined.

(** ** Saving at the end of a cycle *)

Lemma scan_entries_all_seen env feed es st w :
  Forall (is_seen (seen_articles st)) es ->
  scan_entries env feed es st w = (Returned st, w).
Proof.
  intros H. rewrite <- (app_nil_r es). by rewrite scan_entries_pass.
Qed.

Lemma check_feeds_all_seen env urls st w :
  (∀ url en, url ∈ urls -> en ∈ entries (feedparser_parse env url) ->
             is_seen (seen_articles st) en) ->
  check_feeds env urls st w = (Returned st, extend w (EvCheck <$> urls)).
Proof.
  revert w. induction urls as [|url rest IH]; intros w Hseen; simpl.
  - by rewrite extend_nil.
  - unfold check_feed. unfold_M. rewrite scan_entries_all_seen.
    + rewrite IH; [by rewrite extend_extend |].
      intros u en Hu. apply Hseen. by right.
    + apply Forall_reverse, Forall_forall. intros en Hen.
      apply (Hseen url en); [left | done].
Qed.

(** The three ways a cycle can go. *)
Lemma cycle_cases env w :
  ∃ segs o,
    feeds_run env {| seen_articles := loaded env w; new_links_added := false |}
      RSS_URLS segs o
    ∧ ((∃ e, o = Raised e ∧ (run_pipeline env w).1 = Raised e
             ∧ cycle_trace env w = EvLoad :: concat segs)
       ∨ (∃ st, o = Returned st ∧ new_links_added st = false
                ∧ (run_pipeline env w).1 = Returned tt
                ∧ cycle_trace env w = EvLoad :: concat segs)
       ∨ (∃ st after, o = Returned st ∧ new_links_added st = true
                      ∧ (run_pipeline env w).1 = Returned tt
                      ∧ cycle_trace env w
                        = (EvLoad :: concat segs)
                          ++ EvSave (seen_articles st) :: after
                      ∧ (after = [] ∨ ∃ content, after = [EvUploaded content]))).
Proof.
  destruct (run_pipeline_shape env w) as (segs & o & tail & Hrun & Htr & Ho).
  exists segs, o. split; [done |]. destruct o as [st|e].
  - destruct Ho as [Hout Ho]. destruct (new_links_added st) eqn:Hflag.
    + destruct Ho as (_ & after & -> & Hafter). right. right.
      by exists st, after.
    + destruct Ho as [-> _]. right. left. exists st.
      by rewrite app_nil_r in Htr.
  - destruct Ho as (Hout & -> & _). left. exists e. by rewrite app_nil_r in Htr.
Qed.

Lemma no_save_among_feeds env st urls segs o links :
  feeds_run env st urls segs o -> EvSave links ∉ EvLoad :: concat segs.
Proof.
  intros Hrun Hin. apply elem_of_cons in Hin as [Hin|Hin]; [discriminate |].
  destruct (feeds_run_events _ _ _ _ _ Hrun _ Hin) as [[u Hu]|Hu]; discriminate.
Qed.

(** C7, as stated, fails: the first feed's link is notified and added,
    then summarizing the second feed's article raises; the cycle ends
    there and the store is never written. *)
Lemma aborted_cycle_adds_without_saving :
  let w := initial_world None in
  (run_pipeline failing_model_env w).1 = Raised (RuntimeError "out of memory")
  ∧ EvAdd "https://example.org/old" ∈ cycle_trace failing_model_env w
  ∧ (∀ links, EvSave links ∉ cycle_trace failing_model_env w)
  ∧ remote (run_pipeline failing_model_env w).2 = None.
Proof.
  intros w. split; [by vm_compute |]. split; [| split; [| by vm_compute]].
  - vm_compute. do 5 right. left.
  - intros links Hin. vm_compute in Hin.
    repeat (apply elem_of_cons in Hin as [Hin|Hin]; [discriminate |]).
    by apply elem_of_nil in Hin.
Qed.

(** C7, amended: a save implies that a link was added; in a cycle that
    runs to its end without an exception, a link added implies the save,
    which comes last; a cycle cut short by an exception does not save,
    whether or not links were added; and a cycle in which every entry of
    every feed is already seen completes, does not save and leaves the
    remote file as it was. *)
Theorem save_iff_added_when_cycle_completes env w :
  ((∃ links, EvSave links ∈ cycle_trace env w) ->
   ∃ l, EvAdd l ∈ cycle_trace env w)
  ∧ ((run_pipeline env w).1 = Returned tt ->
     (∃ l, EvAdd l ∈ cycle_trace env w) ->
     ∃ before links after,
       cycle_trace env w = before ++ EvSave links :: after
       ∧ (after = [] ∨ ∃ content, after = [EvUploaded content]))
  ∧ (∀ e, (run_pipeline env w).1 = Raised e ->
          ∀ links, EvSave links ∉ cycle_trace env w)
  ∧ ((∀ url en, url ∈ RSS_URLS ->
                en ∈ entries (feedparser_parse env url) ->
                is_seen (loaded env w) en) ->
     (run_pipeline env w).1 = Returned tt
     ∧ (∀ links, EvSave links ∉ cycle_trace env w)
     ∧ remote (run_pipeline env w).2 = remote w).
Proof.
  destruct (cycle_cases env w) as (segs & o & Hrun & Hcases).
  destruct (feeds_run_added _ _ _ _ _ Hrun) as (_ & _ & _ & Hret).
  split; [| split; [| split]].
  - intros [links Hsave].
    destruct Hcases as [(e & _ & _ & Htr)|[(st & _ & _ & _ & Htr)
                       |(st & after & -> & Hflag & _ & Htr & _)]].
    + rewrite Htr in Hsave. by destruct (no_save_among_feeds _ _ _ _ _ links Hrun).
    + rewrite Htr in Hsave. by destruct (no_save_among_feeds _ _ _ _ _ links Hrun).
    + destruct (Hret st eq_refl) as [_ Hflag']. rewrite Hflag in Hflag'.
      simpl in Hflag'. symmetry in Hflag'. apply bool_decide_eq_true in Hflag'.
      destruct (added_links (concat segs)) as [|l ?] eqn:Hadded; [done |].
      exists l. rewrite Htr. apply elem_of_app. left. right.
      apply elem_of_added_links. rewrite Hadded. left.
  - intros Hout [l Hadd].
    destruct Hcases as [(e & _ & Hout' & _)|[(st & -> & Hflag & _ & Htr)
                       |(st & after & _ & _ & _ & Htr & Hafter)]].
    + congruence.
    + exfalso. destruct (Hret st eq_refl) as [_ Hflag']. rewrite Hflag in Hflag'.
      simpl in Hflag'. symmetry in Hflag'. apply bool_decide_eq_false in Hflag'.
      apply Hflag'. intros Hnil. rewrite Htr in Hadd.
      apply elem_of_cons in Hadd as [Hadd|Hadd]; [discriminate |].
      apply elem_of_added_links in Hadd. rewrite Hnil in Hadd.
      by apply elem_of_nil in Hadd.
    + by exists (EvLoad :: concat segs), (seen_articles st), after.
  - intros e Hout links Hsave.
    destruct Hcases as [(e' & _ & _ & Htr)|[(st & _ & _ & Hout' & _)
                       |(st & after & _ & _ & Hout' & _)]]; try congruence.
    rewrite Htr in Hsave. by destruct (no_save_among_feeds _ _ _ _ _ links Hrun).
  - intros Hseen.
    pose proof (check_feeds_all_seen env RSS_URLS
                  {| seen_articles := loaded env w; new_links_added := false |}
                  (extend w [EvLoad]) Hseen) as Heq.
    assert (Hrun' : run_pipeline env w
                    = (Returned tt, extend w (EvLoad :: (EvCheck <$> RSS_URLS)))).
    { rewrite run_pipeline_unfold, Heq. by rewrite extend_extend. }
    split; [by rewrite Hrun' |]. split; [| by rewrite Hrun'].
    intros links Hin. unfold cycle_trace in Hin. rewrite Hrun' in Hin.
    cbn [snd] in Hin. rewrite drop_trace_extend in Hin.
    apply elem_of_cons in Hin as [Hin|Hin]; [discriminate |].
    apply list_elem_of_fmap in Hin as (u & Hu & _). discriminate.
Qed.

(** C7 amended, on a first cycle with a backlog: the cycle completes,
    adds a link and saves. *)
Lemma save_iff_added_when_cycle_completes_witness :
  let env := working_env newest_first_feed in
  let w := initial_world None in
  ∃ before links after,
    cycle_trace env w = before ++ EvSave links :: after
    ∧ (after = [] ∨ ∃ content, after = [EvUploaded content]).
Proof.
  intros env w.
  apply (proj1 (proj2 (save_iff_added_when_cycle_completes env w))).
  - by vm_compute.
  - exists "https://example.org/old". vm_compute. do 5 right. left.
Defined.

(** C9: the loop body returns whatever the cycle did, so the loop goes
    on: after any number of turns [background_task] has not raised and
    has started one cycle per turn.  A cycle that raises [e] is followed
    by the log of [e], a sleep of 60 seconds and the start of the next
    cycle; a cycle that returns is followed by a sleep of 1800 seconds. *)
Theorem loop_survives_exceptions :
  (∀ envs w,
     (background_task envs w).1 = Returned tt
     ∧ count is_load (drop (length (trace w))
                           (trace (background_task envs w).2))
       = length envs)
  ∧ (∀ earlier env next later w e w1,
       run_pipeline env (background_task earlier w).2 = (Raised e, w1) ->
       ∃ tr, trace (background_task (earlier ++ env :: next :: later) w).2
             = trace w1 ++ [EvError e; EvSleep 60; EvLoad] ++ tr)
  ∧ (∀ env w w1,
       run_pipeline env w = (Returned tt, w1) ->
       loop_body env w = (Returned tt, extend w1 [EvSleep 1800])).
Proof.
  split; [| split].
  - intros envs w. destruct (background_task_runs envs w) as (tr & Heq & Htr & Hn).
    split; [by rewrite Heq |]. by rewrite Htr, drop_app_length.
  - intros earlier env next later w e w1 Hraise.
    rewrite background_task_app, !background_task_cons.
    rewrite (loop_body_raised _ _ _ _ Hraise). cbn [snd].
    destruct (loop_body_trace next (extend w1 [EvError e; EvSleep 60]))
      as (tail & Hbody & _).
    rewrite Hbody. cbn [snd].
    destruct (background_task_runs later
                (extend (run_pipeline next (extend w1 [EvError e; EvSleep 60])).2
                   tail)) as (tr & _ & Htr & _).
    rewrite Htr. cbn [trace extend]. rewrite run_pipeline_trace.
    destruct (run_pipeline_shape next (extend w1 [EvError e; EvSleep 60]))
      as (segs & o & tl & _ & Hshape & _).
    rewrite Hshape. cbn [trace extend].
    exists ((concat segs ++ tl) ++ tail ++ tr).
    rewrite <- !app_assoc. simpl. by rewrite <- !app_assoc.
  - intros env w w1. apply loop_body_returned.
Qed.

(** C9 on two turns: the model raises in the first cycle, and the second
    cycle starts after the cooldown. *)
Lemma loop_survives_exceptions_witness :
  let w1 := (run_pipeline failing_model_env (initial_world None)).2 in
  ∃ tr,
    trace (background_task
             ([] ++ failing_model_env :: working_env empty_feed :: [])
             (initial_world None)).2
    = trace w1
      ++ [EvError (RuntimeError "out of memory"); EvSleep 60; EvLoad] ++ tr.
Proof.
  intros w1.
  apply (proj1 (proj2 loop_survives_exceptions) [] failing_model_env
           (working_env empty_feed) [] (initial_world None)
           (RuntimeError "out of memory") w1).
  by vm_compute.
Defined.

(** ** Starting the background thread *)

Lemma script_run_again sid srv thread :
  (default ∅ (Streamlit.session_state srv !! sid)) !! "bot_thread" = Some thread ->
  Streamlit.script_run sid srv = srv.
Proof. intros H. unfold Streamlit.script_run. by rewrite H. Qed.

Lemma script_run_first sid srv :
  (default ∅ (Streamlit.session_state srv !! sid)) !! "bot_thread" = None ->
  Streamlit.threads (Streamlit.script_run sid srv)
  = Streamlit.threads srv ++ [length (Streamlit.threads srv)]
  ∧ (default ∅ (Streamlit.session_state (Streamlit.script_run sid srv) !! sid))
      !! "bot_thread" = Some (length (Streamlit.threads srv)).
Proof.
  intros H. unfold Streamlit.script_run. rewrite H. simpl.
  split; [done |]. rewrite lookup_insert_eq. simpl. by rewrite lookup_insert_eq.
Qed.

(** Reruns within one session start the loop once. *)
Lemma reruns_of_one_session_start_one_thread sid n :
  Streamlit.threads
    (Streamlit.script_runs (replicate (S n) sid) Streamlit.fresh) = [0%nat].
Proof.
  unfold Streamlit.script_runs. simpl.
  destruct (script_run_first sid Streamlit.fresh) as [Hthreads Hstate].
  { simpl. by rewrite lookup_empty. }
  simpl in Hthreads, Hstate.
  generalize dependent (Streamlit.script_run sid Streamlit.fresh).
  induction n as [|n IH]; intros srv Hthreads Hstate; simpl; [done |].
  rewrite (script_run_again sid srv 0%nat Hstate). by apply IH.
Qed.

(** C4: the guard is kept in [st.session_state], which belongs to one
    browser session.  Two sessions of the same server process each find
    their own state without ["bot_thread"], and each starts a thread:
    after one script run in session 0 and one in session 1 the process
    has two background threads. *)
Theorem second_session_starts_second_thread :
  Streamlit.threads (Streamlit.script_runs [0%nat; 1%nat] Streamlit.fresh)
  = [0%nat; 1%nat]
  ∧ ∀ n, Streamlit.threads
           (Streamlit.script_runs (replicate (S n) 0%nat) Streamlit.fresh)
         = [0%nat].
Proof.
  split; [by vm_compute |]. intros n. apply reruns_of_one_session_start_one_thread.
Qed.

(** * Further properties of the code *)

(** ** White space *)

Lemma lstrip_bytes_suffix s : ∃ p, s = p ++ lstrip_bytes s.
Proof.
  induction s as [s IH] using (induction_ltof1 _ length). unfold ltof in IH.
  destruct s as [|c1 [|c2 [|c3 s3]]]; simpl.
  - by exists [].
  - destruct (is_space1 c1); [by exists [c1] | by exists []].
  - destruct (is_space1 c1).
    + destruct (IH [c2]) as [p Hp]; [simpl; lia |]. exists (c1 :: p).
      simpl in Hp |- *. by rewrite <- Hp.
    + destruct (is_space2 c1 c2); [by exists [c1; c2] | by exists []].
  - destruct (is_space1 c1).
    + destruct (IH (c2 :: c3 :: s3)) as [p Hp]; [simpl; lia |].
      exists (c1 :: p). simpl in Hp |- *. by rewrite <- Hp.
    + destruct (is_space2 c1 c2).
      * destruct (IH (c3 :: s3)) as [p Hp]; [simpl; lia |].
        exists (c1 :: c2 :: p). simpl in Hp |- *. by rewrite <- Hp.
      * destruct (is_space3 c1 c2 c3); [| by exists []].
        destruct (IH s3) as [p Hp]; [simpl; lia |].
        exists (c1 :: c2 :: c3 :: p). simpl in Hp |- *. by rewrite <- Hp.
Qed.

Lemma lstrip_rev_bytes_suffix s : ∃ p, s = p ++ lstrip_rev_bytes s.
Proof.
  induction s as [s IH] using (induction_ltof1 _ length). unfold ltof in IH.
  destruct s as [|c1 [|c2 [|c3 s3]]]; simpl.
  - by exists [].
  - destruct (is_space1 c1); [by exists [c1] | by exists []].
  - destruct (is_space1 c1).
    + destruct (IH [c2]) as [p Hp]; [simpl; lia |]. exists (c1 :: p).
      simpl in Hp |- *. by rewrite <- Hp.
    + destruct (is_space2 c2 c1); [by exists [c1; c2] | by exists []].
  - destruct (is_space1 c1).
    + destruct (IH (c2 :: c3 :: s3)) as [p Hp]; [simpl; lia |].
      exists (c1 :: p). simpl in Hp |- *. by rewrite <- Hp.
    + destruct (is_space2 c2 c1).
      * destruct (IH (c3 :: s3)) as [p Hp]; [simpl; lia |].
        exists (c1 :: c2 :: p). simpl in Hp |- *. by rewrite <- Hp.
      * destruct (is_space3 c3 c2 c1); [| by exists []].
        destruct (IH s3) as [p Hp]; [simpl; lia |].
        exists (c1 :: c2 :: c3 :: p). simpl in Hp |- *. by rewrite <- Hp.
Qed.

Lemma lstrip_bytes_idem s : lstrip_bytes (lstrip_bytes s) = lstrip_bytes s.
Proof.
  induction s as [s IH] using (induction_ltof1 _ length). unfold ltof in IH.
  destruct s as [|c1 [|c2 [|c3 s3]]]; simpl.
  - done.
  - destruct (is_space1 c1) eqn:E1; [done |]. simpl. by rewrite E1.
  - destruct (is_space1 c1) eqn:E1; [exact (IH [c2] ltac:(simpl; lia)) |].
    destruct (is_space2 c1 c2) eqn:E2; [done |]. simpl. by rewrite E1, E2.
  - destruct (is_space1 c1) eqn:E1;
      [exact (IH (c2 :: c3 :: s3) ltac:(simpl; lia)) |].
    destruct (is_space2 c1 c2) eqn:E2; [exact (IH (c3 :: s3) ltac:(simpl; lia)) |].
    destruct (is_space3 c1 c2 c3) eqn:E3; [exact (IH s3 ltac:(simpl; lia)) |].
    simpl. by rewrite E1, E2, E3.
Qed.

Lemma lstrip_rev_bytes_idem s :
  lstrip_rev_bytes (lstrip_rev_bytes s) = lstrip_rev_bytes s.
Proof.
  induction s as [s IH] using (induction_ltof1 _ length). unfold ltof in IH.
  destruct s as [|c1 [|c2 [|c3 s3]]]; simpl.
  - done.
  - destruct (is_space1 c1) eqn:E1; [done |]. simpl. by rewrite E1.
  - destruct (is_space1 c1) eqn:E1; [exact (IH [c2] ltac:(simpl; lia)) |].
    destruct (is_space2 c2 c1) eqn:E2; [done |]. simpl. by rewrite E1, E2.
  - destruct (is_space1 c1) eqn:E1;
      [exact (IH (c2 :: c3 :: s3) ltac:(simpl; lia)) |].
    destruct (is_space2 c2 c1) eqn:E2; [exact (IH (c3 :: s3) ltac:(simpl; lia)) |].
    destruct (is_space3 c3 c2 c1) eqn:E3; [exact (IH s3 ltac:(simpl; lia)) |].
    simpl. by rewrite E1, E2, E3.
Qed.

Lemma lstrip_rev_bytes_shorter s c :
  lstrip_rev_bytes s ≠ c :: (c :: s) ∧ lstrip_rev_bytes s ≠ c :: s
  ∧ (length (lstrip_rev_bytes s) ≤ length s)%nat.
Proof.
  destruct (lstrip_rev_bytes_suffix s) as [p Hp].
  assert (Hlen : (length (lstrip_rev_bytes s) ≤ length s)%nat).
  { rewrite Hp at 2. rewrite length_app. lia. }
  split; [| split; [| done]]; intros Heq; rewrite Heq in Hlen; simpl in Hlen; lia.
Qed.

(** A list that the backward scan leaves alone stays so when cut short
    at its far end. *)
Lemma lstrip_rev_bytes_fixed_prefix a q :
  lstrip_rev_bytes (a ++ q) = a ++ q -> lstrip_rev_bytes a = a.
Proof.
  assert (Hshort : ∀ s pre, pre ≠ [] -> lstrip_rev_bytes s ≠ pre ++ s).
  { intros s pre Hpre Heq.
    destruct (lstrip_rev_bytes_shorter s LF) as (_ & _ & Hlen).
    rewrite Heq, length_app in Hlen. destruct pre; [done | simpl in Hlen; lia]. }
  destruct a as [|c1 [|c2 [|c3 a3]]]; simpl; [done | | |].
  - destruct (is_space1 c1); [| done]. intros H.
    by destruct (Hshort q [c1]).
  - destruct (is_space1 c1).
    { intros H. by destruct (Hshort (c2 :: q) [c1]). }
    destruct (is_space2 c2 c1); [| done].
    intros H. by destruct (Hshort q [c1; c2]).
  - destruct (is_space1 c1).
    { intros H. by destruct (Hshort (c2 :: c3 :: a3 ++ q) [c1]). }
    destruct (is_space2 c2 c1).
    { intros H. by destruct (Hshort (c3 :: a3 ++ q) [c1; c2]). }
    destruct (is_space3 c3 c2 c1); [| done].
    intros H. by destruct (Hshort (a3 ++ q) [c1; c2; c3]).
Qed.

Lemma rstrip_lstrip_fixed x :
  rstrip_bytes x = x -> rstrip_bytes (lstrip_bytes x) = lstrip_bytes x.
Proof.
  unfold rstrip_bytes. intros Hx.
  assert (Hfix : lstrip_rev_bytes (reverse x) = reverse x).
  { rewrite <- Hx at 2. by rewrite reverse_involutive. }
  destruct (lstrip_bytes_suffix x) as [p Hp].
  rewrite Hp, !reverse_app in Hfix.
  apply lstrip_rev_bytes_fixed_prefix in Hfix.
  by rewrite Hfix, reverse_involutive.
Qed.

Lemma rstrip_bytes_idem b : rstrip_bytes (rstrip_bytes b) = rstrip_bytes b.
Proof.
  unfold rstrip_bytes. by rewrite reverse_involutive, lstrip_rev_bytes_idem.
Qed.

Lemma strip_idem s : strip (strip s) = strip s.
Proof.
  unfold strip. rewrite String.list_ascii_of_string_of_list_ascii. f_equal.
  rewrite rstrip_lstrip_fixed by apply rstrip_bytes_idem.
  apply lstrip_bytes_idem.
Qed.

(** ** Line breaks *)

Lemma has_linebreak_bytes s :
  has_linebreak s = false ↔ Forall not_break (String.list_ascii_of_string s).
Proof.
  induction s as [|c s IH]; simpl.
  - split; [constructor | done].
  - rewrite Forall_cons, <- IH. unfold not_break.
    destruct (Ascii.eqb c LF), (Ascii.eqb c CR), (has_linebreak s); simpl;
      intuition congruence.
Qed.

Lemma strip_bytes_infix b :
  ∃ p q, b = p ++ lstrip_bytes (rstrip_bytes b) ++ q.
Proof.
  destruct (lstrip_bytes_suffix (rstrip_bytes b)) as [p Hp].
  destruct (lstrip_rev_bytes_suffix (reverse b)) as [q Hq].
  exists p, (reverse q). rewrite app_assoc, <- Hp. unfold rstrip_bytes.
  rewrite <- reverse_app, <- Hq. by rewrite reverse_involutive.
Qed.

Lemma strip_no_linebreak s :
  has_linebreak s = false -> has_linebreak (strip s) = false.
Proof.
  rewrite !has_linebreak_bytes. unfold strip.
  rewrite String.list_ascii_of_string_of_list_ascii. intros H.
  destruct (strip_bytes_infix (String.list_ascii_of_string s)) as (p & q & Hpq).
  rewrite Hpq in H. apply Forall_app in H as [_ H]. by apply Forall_app in H as [H _].
Qed.

Lemma universal_newlines_no_cr s :
  Forall (fun c => Ascii.eqb c CR = false)
         (String.list_ascii_of_string (universal_newlines s)).
Proof.
  induction s as [s IH] using (induction_ltof1 _ String.length).
  unfold ltof in IH. destruct s as [|c [|c' s']].
  - constructor.
  - simpl. destruct (Ascii.eqb c CR) eqn:E; simpl; repeat constructor; done.
  - cbn [universal_newlines]. destruct (Ascii.eqb c CR) eqn:E.
    + destruct (Ascii.eqb c' LF).
      * simpl. constructor; [done |]. apply IH. simpl. lia.
      * simpl. constructor; [done |]. apply (IH (String c' s')). simpl. lia.
    + simpl. constructor; [done |]. apply (IH (String c' s')). simpl. lia.
Qed.

Lemma file_lines_shape s :
  Forall (fun c => Ascii.eqb c CR = false) (String.list_ascii_of_string s) ->
  Forall line_shape (file_lines s).
Proof.
  induction s as [|c s IH]; simpl; intros H; [constructor |].
  apply Forall_cons in H as [Hc Hs]. specialize (IH Hs).
  destruct (Ascii.eqb c LF) eqn:E.
  - constructor; [| done]. exists "". split; [done | by right].
  - destruct (file_lines s) as [|line lines].
    + constructor; [| constructor]. exists (String c ""). split; [| by left].
      simpl. by rewrite E, Hc.
    + apply Forall_cons in IH as [(body & Hbody & Hline) Hlines].
      constructor; [| done]. exists (String c body). split.
      * simpl. by rewrite E, Hc.
      * destruct Hline as [->| ->]; [by left | by right].
Qed.

Lemma strip_line_shape line : line_shape line -> clean (strip line).
Proof.
  intros (body & Hbody & [->| ->]); rewrite ?strip_line; split;
    first [by apply strip_no_linebreak | apply strip_idem].
Qed.

Lemma parse_links_clean content l : l ∈ parse_links content -> clean l.
Proof.
  unfold parse_links. intros Hl. apply elem_of_list_to_set in Hl.
  apply list_elem_of_fmap in Hl as (line & -> & Hline).
  apply strip_line_shape.
  pose proof (file_lines_shape _ (universal_newlines_no_cr content)) as Hall.
  rewrite Forall_forall in Hall. by apply Hall.
Qed.

Lemma loaded_clean env w l : l ∈ loaded env w -> clean l.
Proof.
  rewrite loaded_cases. destruct (hub_download_error env), (remote w);
    try (intros H; by apply not_elem_of_empty in H).
  apply parse_links_clean.
Qed.

(** ** The helpers *)

(** X1: [scrape_article_text] returns a text exactly when the download
    gave a page that is not empty and the extraction of that page
    returned that text; a download or extraction that raises, or a
    missing or empty page, gives [None]. *)
Theorem scrape_article_text_some env url text :
  scrape_article_text env url = Some text
  ↔ ∃ downloaded,
      trafilatura_fetch_url env url = Returned (Some downloaded)
      ∧ downloaded ≠ ""
      ∧ trafilatura_extract env downloaded = Returned (Some text).
Proof.
  unfold scrape_article_text. split.
  - destruct (trafilatura_fetch_url env url) as [[d|]|e]; simpl; try done.
    destruct (String.eqb_spec d ""); simpl; [done |].
    destruct (trafilatura_extract env d) as [t|e] eqn:E; [| done].
    intros ->. by exists d.
  - intros (d & -> & Hd & Hx). simpl.
    destruct (String.eqb_spec d ""); [done |]. simpl. by rewrite Hx.
Qed.

(** X2: [send_telegram_message] logs success exactly when the request
    was answered with status 200; every other status and every
    exception is logged as a failure. *)
Theorem send_telegram_message_success env message :
  send_telegram_message env message = SentSuccessfully
  ↔ ∃ json_ok, requests_post env message = Responded 200 json_ok.
Proof.
  unfold send_telegram_message. split.
  - destruct (requests_post env message) as [code j|e]; [| done].
    destruct (Z.eqb_spec code 200) as [->|Hne]; [by exists j |].
    by destruct j.
  - intros [j ->]. done.
Qed.

(** ** What the store gives back *)

(** X3: every link that [get_seen_links] returns is free of line breaks
    and of white space at its ends, whatever the remote file holds. *)
Theorem loaded_links_are_clean env w links w' l :
  get_seen_links env w = (Returned links, w') -> l ∈ links -> clean l.
Proof.
  rewrite get_seen_links_eq. intros [= <- _]. apply loaded_clean.
Qed.

Lemma loaded_links_are_clean_witness :
  clean "https://example.org/mid".
Proof.
  apply (loaded_links_are_clean (working_env empty_feed)
           (initial_world
              (Some ("  https://example.org/mid " +:+ String CR newline
                     +:+ newline)))
           {[ "https://example.org/mid"; "" ]}
           (extend (initial_world
                      (Some ("  https://example.org/mid " +:+ String CR newline
                             +:+ newline))) [EvLoad])).
  - by vm_compute.
  - apply elem_of_union_l. by apply elem_of_singleton.
Defined.

Lemma loaded_after_upload env env' links w :
  hub_upload_error env = None -> hub_download_error env' = None ->
  loaded env' (saved_world env links w)
  = parse_links (write_links (set_order env links)).
Proof.
  intros Hup Hdown. rewrite loaded_cases, Hdown. unfold saved_world.
  by rewrite Hup.
Qed.

(** X4: a set that was loaded survives being saved and loaded again:
    when upload and download succeed, saving what [get_seen_links]
    returned and loading gives the same set. *)
Theorem resaving_loaded_set_round_trips env w :
  hub_upload_error env = None -> hub_download_error env = None ->
  set_order env (loaded env w) ≡ₚ elements (loaded env w) ->
  get_seen_links env (update_seen_links env (loaded env w) w).2
  = (Returned (loaded env w),
     extend (update_seen_links env (loaded env w) w).2 [EvLoad]).
Proof.
  intros Hup Hdown Hperm. rewrite update_seen_links_eq. cbn [snd].
  rewrite get_seen_links_eq.
  destruct (load_after_save env (loaded env w) w Hup Hdown Hperm) as [_ ->];
    [| done].
  intros l. apply loaded_clean.
Qed.

Lemma resaving_loaded_set_round_trips_witness :
  let env := working_env empty_feed in
  let w := initial_world (Some (" a " +:+ newline +:+ "b" +:+ String CR "b")) in
  get_seen_links env (update_seen_links env (loaded env w) w).2
  = (Returned (loaded env w),
     extend (update_seen_links env (loaded env w) w).2 [EvLoad]).
Proof.
  intros env w. apply (resaving_loaded_set_round_trips env w); reflexivity.
Defined.

Lemma parse_links_write_links_strip links :
  Forall (fun l => has_linebreak l = false) links ->
  parse_links (write_links links) = list_to_set (strip <$> links).
Proof.
  intros Hlinks. unfold parse_links. rewrite file_lines_write_links by done.
  rewrite <- list_fmap_compose. f_equal. apply list_fmap_ext.
  intros i l _. simpl. apply strip_line.
Qed.

(** X5: for links without line breaks, saving a set and loading it gives
    the set of the stripped links: a link comes back without the white
    space at its ends, and two links that differ only there come back as
    one. *)
Theorem save_then_load_strips_links env links w :
  hub_upload_error env = None -> hub_download_error env = None ->
  set_order env links ≡ₚ elements links ->
  (∀ l, l ∈ links -> has_linebreak l = false) ->
  loaded env (update_seen_links env links w).2 = set_map strip links.
Proof.
  intros Hup Hdown Hperm Hlinks. rewrite update_seen_links_eq. cbn [snd].
  rewrite (loaded_after_upload env env links w Hup Hdown).
  rewrite parse_links_write_links_strip.
  - unfold set_map. by rewrite Hperm.
  - apply Forall_forall. intros l Hl. apply Hlinks.
    rewrite Hperm in Hl. by apply elem_of_elements in Hl.
Qed.

Lemma save_then_load_strips_links_witness :
  let env := working_env empty_feed in
  let links : gset string := {[ padded_link; "https://example.org/a" ]} in
  loaded env (update_seen_links env links (initial_world None)).2
  = set_map strip links.
Proof.
  intros env links.
  apply (save_then_load_strips_links env links (initial_world None));
    try reflexivity.
  intros l Hl.
  apply elem_of_union in Hl as [Hl|Hl]; apply elem_of_singleton in Hl;
    by subst l.
Defined.

(** ** What a cycle saves *)

Lemma cycle_save_is_loaded_plus_added env w links :
  EvSave links ∈ cycle_trace env w ->
  links = list_to_set (added_links (cycle_trace env w)) ∪ loaded env w
  ∧ (run_pipeline env w).1 = Returned tt
  ∧ ∃ tr, (run_pipeline env w).2 = saved_world env links (extend w tr).
Proof.
  intros Hsave.
  destruct (run_pipeline_shape env w) as (segs & o & tail & Hrun & Htr & Ho).
  destruct (feeds_run_added _ _ _ _ _ Hrun) as (_ & _ & _ & Hret).
  rewrite Htr in Hsave.
  change (EvLoad :: ?x) with ([EvLoad] ++ x) in Hsave.
  rewrite app_assoc in Hsave. apply elem_of_app in Hsave as [Hsave|Hsave].
  { by destruct (no_save_among_feeds _ _ _ _ _ links Hrun). }
  destruct o as [st|e].
  2: { destruct Ho as (_ & -> & _). by apply elem_of_nil in Hsave. }
  destruct Ho as [Hout Ho]. destruct (new_links_added st).
  2: { destruct Ho as [-> _]. by apply elem_of_nil in Hsave. }
  destruct Ho as (Hworld & tail' & -> & Htail).
  assert (Hlinks : links = seen_articles st).
  { apply elem_of_cons in Hsave as [Hsave|Hsave]; [congruence |].
    destruct Htail as [->|[content ->]].
    - by apply elem_of_nil in Hsave.
    - apply list_elem_of_singleton in Hsave. discriminate. }
  subst links. destruct (Hret st eq_refl) as [Hseen _].
  split; [| split; [done | by eexists]].
  rewrite Hseen, Htr. f_equal. f_equal.
  change (EvLoad :: ?x) with ([EvLoad] ++ x). rewrite !added_links_app. simpl.
  destruct Htail as [->|[content ->]]; simpl; by rewrite app_nil_r.
Qed.

(** X6: the set a cycle hands to [update_seen_links] is the set it
    loaded together with the links it added, no more and no less. *)
Theorem saved_set_is_loaded_plus_added env w links :
  EvSave links ∈ cycle_trace env w ->
  links = list_to_set (added_links (cycle_trace env w)) ∪ loaded env w.
Proof. intros H. by destruct (cycle_save_is_loaded_plus_added env w links H). Qed.

Lemma saved_set_is_loaded_plus_added_witness :
  let env := working_env newest_first_feed in
  let w := initial_world (Some ("https://example.org/mid" +:+ newline)) in
  ({[ "https://example.org/old"; "https://example.org/mid" ]} : gset string)
  = list_to_set (added_links (cycle_trace env w)) ∪ loaded env w.
Proof.
  intros env w. apply (saved_set_is_loaded_plus_added env w).
  vm_compute. do 9 right. left.
Defined.

(** X7: when the download fails although the remote file exists, the
    cycle starts from the empty set; if it then adds a link and the
    upload succeeds, the remote file is replaced by a file holding only
    the links added in this cycle: the links stored before are gone. *)
Theorem failed_download_then_save_overwrites env w e :
  hub_download_error env = Some e -> hub_upload_error env = None ->
  (run_pipeline env w).1 = Returned tt ->
  added_links (cycle_trace env w) ≠ [] ->
  remote (run_pipeline env w).2
  = Some (write_links
            (set_order env (list_to_set (added_links (cycle_trace env w))))).
Proof.
  intros Hdown Hup Hout Hadded.
  destruct (cycle_cases env w) as (segs & o & Hrun & Hcases).
  destruct (feeds_run_added _ _ _ _ _ Hrun) as (_ & _ & _ & Hret).
  assert (Hloaded : loaded env w = ∅) by (by rewrite loaded_cases, Hdown).
  destruct Hcases as [(e' & _ & Hout' & _)|[(st & -> & Hflag & _ & Htr)
                     |(st & after & -> & Hflag & _ & Htr & _)]].
  - congruence.
  - exfalso. destruct (Hret st eq_refl) as [_ Hflag']. rewrite Hflag in Hflag'.
    simpl in Hflag'. symmetry in Hflag'. apply bool_decide_eq_false in Hflag'.
    apply Hflag'. intros Hsegs. apply Hadded. rewrite Htr. simpl.
    by rewrite Hsegs.
  - assert (Hsave : EvSave (seen_articles st) ∈ cycle_trace env w).
    { rewrite Htr. apply elem_of_app. right. left. }
    destruct (cycle_save_is_loaded_plus_added env w _ Hsave)
      as (Hlinks & _ & tr & Hworld).
    rewrite Hworld. unfold saved_world. rewrite Hup. simpl.
    rewrite Hlinks, Hloaded. by rewrite (right_id_L ∅ (∪)).
Qed.

Lemma failed_download_then_save_overwrites_witness :
  let env :=
    {| feedparser_parse := feedparser_parse (working_env newest_first_feed);
       trafilatura_fetch_url := fun url => Returned (Some url);
       trafilatura_extract := fun downloaded => Returned (Some downloaded);
       t5_generate := fun _ => Returned "summary";
       requests_post := fun _ => Responded 200 true;
       hub_download_error := Some (RuntimeError "timeout");
       hub_upload_error := None;
       set_order := elements |} in
  let w := initial_world (Some ("https://example.org/mid" +:+ newline)) in
  remote (run_pipeline env w).2
  = Some (write_links
            (set_order env (list_to_set (added_links (cycle_trace env w))))).
Proof.
  intros env w.
  apply (failed_download_then_save_overwrites env w (RuntimeError "timeout"));
    by vm_compute.
Defined.

(** ** The order of the feeds *)

Lemma checked_urls_app tr1 tr2 :
  checked_urls (tr1 ++ tr2) = checked_urls tr1 ++ checked_urls tr2.
Proof.
  induction tr1 as [|ev tr1 IH]; [done |].
  destruct ev; simpl; by rewrite ?IH.
Qed.

Lemma checked_urls_none tr :
  (∀ ev, ev ∈ tr -> ∀ url, ev ≠ EvCheck url) -> checked_urls tr = [].
Proof.
  induction tr as [|ev tr IH]; intros H; [done |].
  assert (Hrest : checked_urls tr = []).
  { apply IH. intros ev' Hev'. apply H. by right. }
  destruct ev; simpl; try done. by destruct (H (EvCheck url) ltac:(left) url).
Qed.

Lemma segment_checks_nothing env es st tr o :
  segment env es st tr o -> checked_urls tr = [].
Proof. by destruct 1. Qed.

Lemma feeds_run_checked env st urls segs o :
  feeds_run env st urls segs o ->
  checked_urls (concat segs) = take (length segs) urls
  ∧ ∀ st', o = Returned st' -> length segs = length urls.
Proof.
  induction 1 as [st|st url rest tr e Hseg|st url rest tr st' segs o Hseg _ IH];
    simpl.
  - done.
  - rewrite app_nil_r, (segment_checks_nothing _ _ _ _ _ Hseg), take_0.
    split; [done | intros st' [=]].
  - destruct IH as [IH1 IH2].
    rewrite checked_urls_app, (segment_checks_nothing _ _ _ _ _ Hseg), IH1.
    split; [done |]. intros st'' Ho. by rewrite (IH2 st'' Ho).
Qed.

(** X8: a cycle checks the configured feeds in their order, each at most
    once: the feeds checked are a prefix of [RSS_URLS], and all of
    [RSS_URLS] when the cycle returns. *)
Theorem feeds_checked_in_configured_order env w :
  (∃ n, checked_urls (cycle_trace env w) = take n RSS_URLS)
  ∧ ((run_pipeline env w).1 = Returned tt ->
     checked_urls (cycle_trace env w) = RSS_URLS).
Proof.
  destruct (cycle_cases env w) as (segs & o & Hrun & Hcases).
  destruct (feeds_run_checked _ _ _ _ _ Hrun) as [Hchecked Hall].
  assert (Htr : ∃ after, cycle_trace env w = (EvLoad :: concat segs) ++ after
                         ∧ checked_urls after = []).
  { destruct Hcases as [(e & _ & _ & Htr)|[(st & _ & _ & _ & Htr)
                       |(st & after & _ & _ & _ & Htr & Hafter)]].
    - exists []. by rewrite app_nil_r.
    - exists []. by rewrite app_nil_r.
    - eexists. split; [exact Htr |]. by destruct Hafter as [->|[c ->]]. }
  destruct Htr as (after & Htr & Hafter).
  assert (Heq : checked_urls (cycle_trace env w) = take (length segs) RSS_URLS).
  { rewrite Htr, checked_urls_app, Hafter, app_nil_r. simpl. exact Hchecked. }
  split; [by eexists |]. intros Hout. rewrite Heq.
  destruct Hcases as [(e & _ & Hout' & _)|[(st & -> & _)|(st & ? & -> & _)]].
  - congruence.
  - rewrite (Hall st eq_refl). apply firstn_all.
  - rewrite (Hall st eq_refl). apply firstn_all.
Qed.

Lemma feeds_checked_in_configured_order_witness :
  checked_urls (cycle_trace (working_env newest_first_feed) (initial_world None))
  = RSS_URLS.
Proof.
  apply (proj2 (feeds_checked_in_configured_order
                  (working_env newest_first_feed) (initial_world None))).
  by vm_compute.
Defined.

(** ** Feeds that give nothing, entries that lack an attribute *)

(** X9: a feed without unseen entries, among them the empty feed that a
    failed fetch gives, costs its check only: the seen set and the flag
    are unchanged and the loop goes on to the next feed. *)
Theorem feed_without_unseen_entries_is_passed env url rest st w :
  Forall (is_seen (seen_articles st)) (entries (feedparser_parse env url)) ->
  check_feeds env (url :: rest) st w
  = check_feeds env rest st (extend w [EvCheck url]).
Proof.
  intros Hseen. cbn [check_feeds]. unfold check_feed. unfold_M.
  by rewrite scan_entries_all_seen by (by apply Forall_reverse).
Qed.

Lemma feed_without_unseen_entries_is_passed_witness :
  let env := working_env empty_feed in
  let st := {| seen_articles := ∅; new_links_added := false |} in
  check_feeds env (first_url :: [second_url]) st (initial_world None)
  = check_feeds env [second_url] st
      (extend (initial_world None) [EvCheck first_url]).
Proof.
  intros env st.
  apply (feed_without_unseen_entries_is_passed env first_url [second_url] st
           (initial_world None)).
  constructor.
Defined.

Lemma raised_cycle_keeps_remote env w e :
  (run_pipeline env w).1 = Raised e ->
  remote (run_pipeline env w).2 = remote w
  ∧ ∀ links, EvSave links ∉ cycle_trace env w.
Proof.
  intros Hout.
  destruct (run_pipeline_shape env w) as (segs & o & tail & Hrun & Htr & Ho).
  destruct o as [st|e']; [destruct Ho as [Hout' _]; congruence |].
  destruct Ho as (_ & -> & Hremote). split; [done |].
  intros links Hin. rewrite Htr, app_nil_r in Hin.
  by destruct (no_save_among_feeds _ _ _ _ _ links Hrun).
Qed.

Lemma check_feeds_raises_at env us1 url us2 st w ex :
  (∀ sta w', seen_articles st ⊆ seen_articles sta ->
             check_feed env url sta w' = (Raised ex, extend w' [EvCheck url])) ->
  ∃ ex' w', check_feeds env (us1 ++ url :: us2) st w = (Raised ex', w').
Proof.
  intros Hurl. rewrite check_feeds_app.
  destruct (check_feeds_run env us1 st w) as (segs & o & Heq & Hrun).
  rewrite Heq. destruct o as [sta|e]; [| by eexists _, _].
  destruct (feeds_run_mono _ _ _ _ _ Hrun) as (Hmono & _).
  cbn [check_feeds]. unfold mbind, M_bind. rewrite (Hurl sta _ Hmono).
  by eexists _, _.
Qed.

(** X10: an entry without a link, met by the scan before any unseen
    entry, raises [AttributeError] as soon as its feed is checked.  A
    cycle over a configured feed in that state raises, saves nothing and
    leaves the remote file as it was: the feeds configured after it are
    not reached through it. *)
Theorem entry_without_link_aborts_cycle env w url l1 e l2 :
  url ∈ RSS_URLS ->
  entries (feedparser_parse env url) = l1 ++ e :: l2 ->
  Forall (is_seen (loaded env w)) l2 -> link e = None ->
  (∀ st w', loaded env w ⊆ seen_articles st ->
            check_feed env url st w'
            = (Raised (AttributeError "link"), extend w' [EvCheck url]))
  ∧ (∃ ex, (run_pipeline env w).1 = Raised ex)
  ∧ (∀ links, EvSave links ∉ cycle_trace env w)
  ∧ remote (run_pipeline env w).2 = remote w.
Proof.
  intros Hurl Hes Hl2 Hl.
  assert (Hfeed : ∀ st w', loaded env w ⊆ seen_articles st ->
            check_feed env url st w'
            = (Raised (AttributeError "link"), extend w' [EvCheck url])).
  { intros st w' Hsub. unfold check_feed. unfold_M.
    rewrite Hes, reverse_app, reverse_cons, <- app_assoc.
    rewrite scan_entries_pass.
    - simpl. unfold_M. by rewrite Hl.
    - apply Forall_reverse. eapply Forall_impl; [exact Hl2 |].
      intros en (l & Hk & Hin). exists l. split; [done | by apply Hsub]. }
  split; [done |].
  assert (Hraise : ∃ ex, (run_pipeline env w).1 = Raised ex).
  { destruct (list_elem_of_split _ _ Hurl) as (us1 & us2 & Hsplit).
    destruct (check_feeds_raises_at env us1 url us2
                {| seen_articles := loaded env w; new_links_added := false |}
                (extend w [EvLoad]) (AttributeError "link") Hfeed)
      as (ex & w' & Heq).
    exists ex. rewrite run_pipeline_unfold, Hsplit, Heq. done. }
  split; [done |]. destruct Hraise as [ex Hex].
  destruct (raised_cycle_keeps_remote env w ex Hex). by split.
Qed.

Lemma entry_without_link_aborts_cycle_witness :
  let env :=
    working_env
      {| feed_title := Some "News";
         entries := [story_new;
                     {| link := None; title := Some "Untitled"; published := 0 |}]
      |} in
  let w := initial_world None in
  (∃ ex, (run_pipeline env w).1 = Raised ex)
  ∧ (∀ links, EvSave links ∉ cycle_trace env w)
  ∧ remote (run_pipeline env w).2 = remote w.
Proof.
  intros env w.
  apply (entry_without_link_aborts_cycle env w first_url [story_new]
           {| link := None; title := Some "Untitled"; published := 0 |} []).
  - apply list_elem_of_here.
  - reflexivity.
  - constructor.
  - reflexivity.
Defined.

(** X11: when the entry the scan stops at has no title, the feed's check
    raises [AttributeError] before anything is scraped. *)
Theorem selected_entry_without_title_raises env url st w l1 e l2 l :
  entries (feedparser_parse env url) = l1 ++ e :: l2 ->
  Forall (is_seen (seen_articles st)) l2 ->
  link e = Some l -> l ∉ seen_articles st -> title e = None ->
  check_feed env url st w
  = (Raised (AttributeError "title"), extend w [EvCheck url]).
Proof.
  intros Hes Hl2 Hl Hnew Ht.
  rewrite (check_feed_select env url st w l1 e l2 l Hes Hl2 Hl Hnew).
  unfold process_entry. unfold_M. by rewrite Ht.
Qed.

Lemma selected_entry_without_title_raises_witness :
  let e := {| link := Some "https://example.org/x"; title := None;
              published := 0 |} in
  let env := working_env {| feed_title := Some "News"; entries := [e] |} in
  let st := {| seen_articles := ∅; new_links_added := false |} in
  check_feed env first_url st (initial_world None)
  = (Raised (AttributeError "title"),
     extend (initial_world None) [EvCheck first_url]).
Proof.
  intros e env st.
  apply (selected_entry_without_title_raises env first_url st
           (initial_world None) [] e [] "https://example.org/x").
  - reflexivity.
  - constructor.
  - reflexivity.
  - apply not_elem_of_empty.
  - reflexivity.
Defined.

(** X12: when the model raises on the text of the selected entry, or the
    feed has no title, the exception leaves the feed's check after the
    scrape and the call of the summarizer: nothing is sent, and the link
    is not added, so the entry is still unseen. *)
Theorem failure_before_send_adds_nothing env url st w l1 e l2 l t ex :
  entries (feedparser_parse env url) = l1 ++ e :: l2 ->
  Forall (is_seen (seen_articles st)) l2 ->
  link e = Some l -> l ∉ seen_articles st -> title e = Some t ->
  truthy (scrape_article_text env l) = true ->
  (summarize_text env (scrape_article_text env l) = Raised ex
   ∨ ((∃ summary, summarize_text env (scrape_article_text env l)
                  = Returned summary)
      ∧ feed_title (feedparser_parse env url) = None
      ∧ ex = AttributeError "title")) ->
  check_feed env url st w
  = (Raised ex, extend w [EvCheck url; EvScrape l; EvSummarize l]).
Proof.
  intros Hes Hl2 Hl Hnew Ht Htext Hfail.
  rewrite (check_feed_select env url st w l1 e l2 l Hes Hl2 Hl Hnew).
  unfold process_entry. unfold_M. rewrite Ht, Htext.
  destruct Hfail as [->|([summary ->] & -> & ->)]; by rewrite !extend_extend.
Qed.

Lemma failure_before_send_adds_nothing_witness :
  let st := {| seen_articles := {[ "https://example.org/old" ]};
               new_links_added := true |} in
  check_feed failing_model_env second_url st (initial_world None)
  = (Raised (RuntimeError "out of memory"),
     extend (initial_world None)
       [EvCheck second_url; EvScrape "https://example.org/mid";
        EvSummarize "https://example.org/mid"]).
Proof.
  intros st.
  apply (failure_before_send_adds_nothing failing_model_env second_url st
           (initial_world None) [] story_mid [] "https://example.org/mid" "Mid").
  - reflexivity.
  - constructor.
  - reflexivity.
  - intros Hin. unfold st in Hin. simpl in Hin.
    apply elem_of_singleton in Hin. discriminate.
  - reflexivity.
  - reflexivity.
  - left. reflexivity.
Defined.

(** ** What a cycle sends, whatever the world *)

Lemma truthy_some v : truthy v = true -> ∃ text, v = Some text ∧ text ≠ "".
Proof.
  destruct v as [text|]; [| done]. simpl. intros H. exists text.
  split; [done |]. intros ->. done.
Qed.

Lemma process_entry_run env feed e l st :
  link e = Some l ->
  ∃ tr o, (∀ w, process_entry env feed e l st w = (o, extend w tr))
          ∧ ∀ l' m log, EvSend l' m log ∈ tr -> sent_from env feed e l' m log.
Proof.
  intros Hl.
  assert (Hnone : ∀ tr : list Event,
            (∀ ev, ev ∈ tr -> is_send ev = false) ->
            ∀ l' m log, EvSend l' m log ∈ tr -> sent_from env feed e l' m log).
  { intros tr Htr l' m log Hin. by apply Htr in Hin. }
  destruct (title e) as [t|] eqn:Ht.
  2: { exists [], (Raised (AttributeError "title")). split.
       - intros w. unfold process_entry. unfold_M. by rewrite Ht, extend_nil.
       - apply Hnone. intros ev Hev. by apply elem_of_nil in Hev. }
  destruct (truthy (scrape_article_text env l)) eqn:Htext.
  2: { exists [EvScrape l], (Returned st). split.
       - intros w. unfold process_entry. unfold_M. by rewrite Ht, Htext.
       - apply Hnone. intros ev Hev. apply list_elem_of_singleton in Hev.
         by subst. }
  assert (Hquiet : ∀ ev, ev ∈ [EvScrape l; EvSummarize l] -> is_send ev = false).
  { intros ev Hev. repeat (apply elem_of_cons in Hev as [->|Hev]; [done |]).
    by apply elem_of_nil in Hev. }
  destruct (summarize_text env (scrape_article_text env l)) as [summary|ex] eqn:Hsum.
  2: { exists [EvScrape l; EvSummarize l], (Raised ex). split.
       - intros w. unfold process_entry. unfold_M.
         by rewrite Ht, Htext, Hsum, extend_extend.
       - by apply Hnone. }
  destruct (feed_title feed) as [source|] eqn:Hsource.
  2: { exists [EvScrape l; EvSummarize l], (Raised (AttributeError "title")).
       split.
       - intros w. unfold process_entry. unfold_M.
         by rewrite Ht, Htext, Hsum, Hsource, extend_extend.
       - by apply Hnone. }
  eexists [EvScrape l; EvSummarize l; EvSend l _ _; EvAdd l], _. split.
  - intros w. unfold process_entry. unfold_M.
    rewrite Ht, Htext, Hsum, Hsource, !extend_extend. reflexivity.
  - intros l' m log Hin.
    repeat (apply elem_of_cons in Hin as [Hin|Hin]; [try discriminate |]).
    2: { by apply elem_of_nil in Hin. }
    injection Hin as -> -> ->. split; [done |].
    destruct (truthy_some _ Htext) as (text & Hscrape & Hne).
    exists source, t, text, summary. repeat split; try done.
    unfold summarize_text in Hsum. by rewrite Htext, Hscrape in Hsum.
Qed.

Lemma scan_entries_run env feed es st :
  ∃ tr o, (∀ w, scan_entries env feed es st w = (o, extend w tr))
          ∧ ∀ l m log, EvSend l m log ∈ tr ->
                       ∃ e, e ∈ es ∧ sent_from env feed e l m log.
Proof.
  induction es as [|entry rest IH].
  - exists [], (Returned st). split.
    + intros w. simpl. by rewrite extend_nil.
    + intros l m log Hin. by apply elem_of_nil in Hin.
  - destruct (link entry) as [l|] eqn:Hl.
    2: { exists [], (Raised (AttributeError "link")). split.
         - intros w. simpl. unfold_M. by rewrite Hl, extend_nil.
         - intros l m log Hin. by apply elem_of_nil in Hin. }
    destruct (decide (l ∈ seen_articles st)) as [Hin|Hnin].
    + destruct IH as (tr & o & Heq & Hsend). exists tr, o. split.
      * intros w. simpl. unfold_M. rewrite Hl. by rewrite decide_True.
      * intros l' m log Hev. destruct (Hsend l' m log Hev) as (e & He & Hfrom).
        exists e. split; [by right | done].
    + destruct (process_entry_run env feed entry l st Hl) as (tr & o & Heq & Hsend).
      exists tr, o. split.
      * intros w. simpl. unfold_M. rewrite Hl. by rewrite decide_False.
      * intros l' m log Hev. exists entry. split; [left | by apply Hsend].
Qed.

Lemma check_feeds_sends env urls st :
  ∃ tr o, (∀ w, check_feeds env urls st w = (o, extend w tr))
          ∧ ∀ l m log, EvSend l m log ∈ tr ->
              ∃ url e, url ∈ urls ∧ e ∈ entries (feedparser_parse env url)
                       ∧ sent_from env (feedparser_parse env url) e l m log.
Proof.
  revert st. induction urls as [|url rest IH]; intros st.
  - exists [], (Returned st). split.
    + intros w. simpl. by rewrite extend_nil.
    + intros l m log Hin. by apply elem_of_nil in Hin.
  - destruct (scan_entries_run env (feedparser_parse env url)
                (reverse (entries (feedparser_parse env url))) st)
      as (tr & o & Heq & Hsend).
    assert (Hhere : ∀ l m log, EvSend l m log ∈ EvCheck url :: tr ->
              ∃ u e, u ∈ url :: rest ∧ e ∈ entries (feedparser_parse env u)
                     ∧ sent_from env (feedparser_parse env u) e l m log).
    { intros l m log Hin. apply elem_of_cons in Hin as [Hin|Hin]; [discriminate |].
      destruct (Hsend l m log Hin) as (e & He & Hfrom). exists url, e.
      split; [left |]. split; [by apply elem_of_reverse | done]. }
    destruct o as [st'|ex].
    + destruct (IH st') as (tr' & o' & Heq' & Hsend').
      exists ((EvCheck url :: tr) ++ tr'), o'. split.
      * intros w. cbn [check_feeds]. unfold check_feed. unfold_M.
        by rewrite Heq, Heq', !extend_extend.
      * intros l m log Hin. apply elem_of_app in Hin as [Hin|Hin].
        -- by apply Hhere.
        -- destruct (Hsend' l m log Hin) as (u & e & Hu & He & Hfrom).
           exists u, e. split; [by right | done].
    + exists (EvCheck url :: tr), (Raised ex). split.
      * intros w. cbn [check_feeds]. unfold check_feed. unfold_M.
        by rewrite Heq, !extend_extend.
      * done.
Qed.

Lemma saved_world_events env links w :
  trace (saved_world env links w) = trace w ++ save_events env links.
Proof. unfold saved_world, save_events. by destruct (hub_upload_error env). Qed.

(** The calls of a cycle as a function of the set it loaded. *)
Lemma cycle_trace_explicit env w :
  ∃ tr o,
    (∀ w', check_feeds env RSS_URLS
             {| seen_articles := loaded env w; new_links_added := false |} w'
           = (o, extend w' tr))
    ∧ cycle_trace env w
      = EvLoad :: tr
        ++ match o with
           | Returned st =>
               if new_links_added st then save_events env (seen_articles st)
               else []
           | Raised _ => []
           end
    ∧ (run_pipeline env w).1
      = match o with Returned _ => Returned tt | Raised ex => Raised ex end
    ∧ ∀ l m log, EvSend l m log ∈ tr ->
        ∃ url e, url ∈ RSS_URLS ∧ e ∈ entries (feedparser_parse env url)
                 ∧ sent_from env (feedparser_parse env url) e l m log.
Proof.
  destruct (check_feeds_sends env RSS_URLS
              {| seen_articles := loaded env w; new_links_added := false |})
    as (tr & o & Heq & Hsend).
  exists tr, o. split; [done |]. split; [| split; [| done]].
  - unfold cycle_trace. rewrite run_pipeline_unfold, Heq, extend_extend.
    destruct o as [st|ex]; [destruct (new_links_added st) |]; cbn [snd].
    + rewrite saved_world_events. cbn [trace extend].
      by rewrite <- app_assoc, drop_app_length.
    + cbn [trace extend]. by rewrite app_nil_r, drop_app_length.
    + cbn [trace extend]. by rewrite app_nil_r, drop_app_length.
  - rewrite run_pipeline_unfold, Heq.
    destruct o as [st|ex]; [by destruct (new_links_added st) | done].
Qed.

Lemma cycle_trace_same env w w1 :
  loaded env w1 = loaded env w ->
  cycle_trace env w1 = cycle_trace env w
  ∧ (run_pipeline env w1).1 = (run_pipeline env w).1.
Proof.
  intros Hloaded.
  destruct (cycle_trace_explicit env w) as (tr & o & Heq & Htr & Hout & _).
  destruct (cycle_trace_explicit env w1) as (tr1 & o1 & Heq1 & Htr1 & Hout1 & _).
  rewrite Hloaded in Heq1.
  pose proof (Heq (initial_world None)) as H.
  rewrite (Heq1 (initial_world None)) in H. injection H as Ho Htrace.
  simpl in Htrace. subst o1 tr1. by rewrite Htr, Htr1, Hout, Hout1.
Qed.

Lemma loaded_same_remote env w w1 :
  remote w1 = remote w -> loaded env w1 = loaded env w.
Proof. intros H. by rewrite !loaded_cases, H. Qed.

Lemma unsaved_cycle_keeps_remote env w :
  is_Some (hub_upload_error env) ∨ (∃ ex, (run_pipeline env w).1 = Raised ex) ->
  remote (run_pipeline env w).2 = remote w.
Proof.
  intros [[e He]|[ex Hex]].
  - destruct (run_pipeline_shape env w) as (segs & o & tail & _ & _ & Ho).
    destruct o as [st|ex]; [| by destruct Ho as (_ & _ & ?)].
    destruct Ho as [_ Ho]. destruct (new_links_added st).
    + destruct Ho as [-> _]. unfold saved_world. by rewrite He.
    + by destruct Ho.
  - by destruct (raised_cycle_keeps_remote env w ex Hex).
Qed.

(** X13: when the upload fails, or an exception ends the cycle, nothing
    of the cycle is kept: the next cycle in the same environment makes
    the same calls again, notifications included, and ends the same
    way. *)
Theorem unsaved_cycle_is_repeated env w :
  is_Some (hub_upload_error env) ∨ (∃ ex, (run_pipeline env w).1 = Raised ex) ->
  cycle_trace env (run_pipeline env w).2 = cycle_trace env w
  ∧ (run_pipeline env (run_pipeline env w).2).1 = (run_pipeline env w).1.
Proof.
  intros H. apply cycle_trace_same, loaded_same_remote.
  by apply unsaved_cycle_keeps_remote.
Qed.

Lemma unsaved_cycle_is_repeated_witness :
  let w := initial_world None in
  cycle_trace failing_model_env (run_pipeline failing_model_env w).2
  = cycle_trace failing_model_env w
  ∧ (run_pipeline failing_model_env (run_pipeline failing_model_env w).2).1
    = (run_pipeline failing_model_env w).1.
Proof.
  intros w. apply (unsaved_cycle_is_repeated failing_model_env w).
  right. eexists. by vm_compute.
Defined.

(** X16: every notification of a cycle is made from an entry of a
    configured feed: it carries the feed's title, the entry's title and
    link, and the model's summary of the text extracted for the link,
    which is not empty; the fallback summary of [summarize_text] is never
    what the cycle sends. *)
Theorem notification_is_made_from_a_feed_entry env w l m log :
  EvSend l m log ∈ cycle_trace env w ->
  ∃ url e, url ∈ RSS_URLS ∧ e ∈ entries (feedparser_parse env url)
           ∧ sent_from env (feedparser_parse env url) e l m log.
Proof.
  destruct (cycle_trace_explicit env w) as (tr & o & _ & Htr & _ & Hsend).
  rewrite Htr. intros Hin.
  apply elem_of_cons in Hin as [Hin|Hin]; [discriminate |].
  apply elem_of_app in Hin as [Hin|Hin]; [by apply Hsend |].
  exfalso. destruct o as [st|ex]; [| by apply elem_of_nil in Hin].
  destruct (new_links_added st); [| by apply elem_of_nil in Hin].
  unfold save_events in Hin. destruct (hub_upload_error env);
    repeat (apply elem_of_cons in Hin as [Hin|Hin]; [discriminate |]);
    by apply elem_of_nil in Hin.
Qed.

Lemma notification_is_made_from_a_feed_entry_witness :
  let env := working_env newest_first_feed in
  ∃ url e, url ∈ RSS_URLS ∧ e ∈ entries (feedparser_parse env url)
           ∧ sent_from env (feedparser_parse env url) e
               "https://example.org/old"
               (message_to_send "News" "Old" "summary" "https://example.org/old")
               SentSuccessfully.
Proof.
  intros env.
  apply (notification_is_made_from_a_feed_entry env (initial_world None)).
  vm_compute. do 4 right. left.
Defined.

(** ** From one cycle to the next *)

(** X14: when a cycle returns and its upload succeeds, and the links it
    added are free of line breaks and of white space at their ends, the
    next load (by any environment whose download succeeds) gives the set
    loaded before together with the links added, and the next cycle takes
    no step for a link that was sent. *)
Theorem saved_links_are_not_sent_again env env' w :
  hub_upload_error env = None -> hub_download_error env' = None ->
  (∀ links, set_order env links ≡ₚ elements links) ->
  (run_pipeline env w).1 = Returned tt ->
  added_links (cycle_trace env w) ≠ [] ->
  (∀ l, l ∈ added_links (cycle_trace env w) -> clean l) ->
  loaded env' (run_pipeline env w).2
  = list_to_set (added_links (cycle_trace env w)) ∪ loaded env w
  ∧ ∀ l, l ∈ sent_links (cycle_trace env w) ->
         untouched l (cycle_trace env' (run_pipeline env w).2).
Proof.
  intros Hup Hdown Hperm Hout Hadded Hclean.
  assert (Hload : loaded env' (run_pipeline env w).2
                  = list_to_set (added_links (cycle_trace env w)) ∪ loaded env w).
  { destruct (cycle_cases env w) as (segs & o & Hrun & Hcases).
    destruct (feeds_run_added _ _ _ _ _ Hrun) as (_ & _ & _ & Hret).
    destruct Hcases as [(e' & _ & Hout' & _)|[(st & -> & Hflag & _ & Htr)
                       |(st & after & -> & Hflag & _ & Htr & _)]].
    - congruence.
    - exfalso. destruct (Hret st eq_refl) as [_ Hflag']. rewrite Hflag in Hflag'.
      simpl in Hflag'. symmetry in Hflag'. apply bool_decide_eq_false in Hflag'.
      apply Hflag'. intros Hsegs. apply Hadded. rewrite Htr. simpl.
      by rewrite Hsegs.
    - assert (Hsave : EvSave (seen_articles st) ∈ cycle_trace env w).
      { rewrite Htr. apply elem_of_app. right. left. }
      destruct (cycle_save_is_loaded_plus_added env w _ Hsave)
        as (Hlinks & _ & tr & Hworld).
      rewrite Hworld, (loaded_after_upload env env' _ _ Hup Hdown).
      rewrite parse_links_write_links.
      + by rewrite (Hperm _), list_to_set_elements_L.
      + apply Forall_forall. intros l Hl. rewrite (Hperm _) in Hl.
        apply elem_of_elements in Hl. rewrite Hlinks in Hl.
        apply elem_of_union in Hl as [Hl|Hl].
        * apply Hclean. by apply elem_of_list_to_set in Hl.
        * by apply (loaded_clean env w). }
  split; [done |]. intros l Hl ev Hev Hlink.
  destruct (cycle_touched_unseen env' _ ev l Hev Hlink) as [Hnew _].
  apply Hnew. rewrite Hload. apply elem_of_union_l, elem_of_list_to_set.
  destruct (cycle_sent_added env w) as (Heq & _). by rewrite <- Heq.
Qed.

Lemma saved_links_are_not_sent_again_witness :
  let env := working_env newest_first_feed in
  let w := initial_world (Some ("https://example.org/new" +:+ newline)) in
  loaded env (run_pipeline env w).2
  = list_to_set (added_links (cycle_trace env w)) ∪ loaded env w
  ∧ ∀ l, l ∈ sent_links (cycle_trace env w) ->
         untouched l (cycle_trace env (run_pipeline env w).2).
Proof.
  intros env w. apply (saved_links_are_not_sent_again env env w).
  - reflexivity.
  - reflexivity.
  - reflexivity.
  - by vm_compute.
  - by vm_compute.
  - intros l Hl. vm_compute in Hl. apply list_elem_of_singleton in Hl.
    subst l. by destruct clean_example_links as (? & _).
Defined.

(** X17: with a store that works, saving a set and loading it gives the
    same set exactly when every link of the set is free of line breaks
    and of white space at its ends. *)
Theorem round_trip_iff_clean env links w :
  hub_upload_error env = None -> hub_download_error env = None ->
  set_order env links ≡ₚ elements links ->
  loaded env (update_seen_links env links w).2 = links
  ↔ ∀ l, l ∈ links -> clean l.
Proof.
  intros Hup Hdown Hperm. rewrite update_seen_links_eq. cbn [snd]. split.
  - intros Heq l Hl. rewrite <- Heq in Hl. by apply loaded_clean in Hl.
  - intros Hclean. by destruct (load_after_save env links w Hup Hdown Hperm Hclean).
Qed.

Lemma round_trip_iff_clean_witness :
  let env := working_env empty_feed in
  let links : gset string := {[ "https://example.org/old" ]} in
  loaded env (update_seen_links env links (initial_world None)).2 = links
  ↔ ∀ l, l ∈ links -> clean l.
Proof.
  intros env links.
  apply (round_trip_iff_clean env links (initial_world None)); reflexivity.
Defined.

(** ** How much a cycle sends *)

Lemma count_cons_check p url tr :
  p (EvCheck url) = false -> count p (EvCheck url :: tr) = count p tr.
Proof.
  intros Hp. unfold count. rewrite filter_cons_False; [done |]. by rewrite Hp.
Qed.

Lemma feeds_run_send_count env st urls segs o :
  feeds_run env st urls segs o ->
  (count is_send (concat segs) ≤ length urls)%nat.
Proof.
  induction 1 as [st|st url rest tr e Hseg|st url rest tr st' segs o Hseg _ IH];
    simpl.
  - done.
  - rewrite app_nil_r, count_cons_check by done.
    destruct (segment_at_most_one _ _ _ _ _ Hseg) as (_ & _ & Hsend & _). lia.
  - change (EvCheck url :: tr ++ concat segs)
      with ((EvCheck url :: tr) ++ concat segs).
    rewrite count_app, count_cons_check by done.
    destruct (segment_at_most_one _ _ _ _ _ Hseg) as (_ & _ & Hsend & _). lia.
Qed.

(** X18: a cycle attempts at most four notifications, one for each
    configured feed, whatever the feeds hold. *)
Theorem at_most_four_notifications_per_cycle env w :
  (count is_send (cycle_trace env w) ≤ 4)%nat.
Proof.
  destruct (cycle_cases env w) as (segs & o & Hrun & Hcases).
  pose proof (feeds_run_send_count _ _ _ _ _ Hrun) as Hcount.
  change (length RSS_URLS) with 4%nat in Hcount.
  assert (Htr : ∃ after, cycle_trace env w = [EvLoad] ++ concat segs ++ after
                         ∧ count is_send after = 0%nat).
  { destruct Hcases as [(e & _ & _ & Htr)|[(st & _ & _ & _ & Htr)
                       |(st & after & _ & _ & _ & Htr & Hafter)]].
    - exists []. by rewrite app_nil_r.
    - exists []. by rewrite app_nil_r.
    - eexists. split; [exact Htr |].
      by destruct Hafter as [->|[c ->]]. }
  destruct Htr as (after & -> & Hafter).
  rewrite !count_app, Hafter. change (count is_send [EvLoad]) with 0%nat. lia.
Qed.

(** ** One thread for each session *)

Lemma script_run_sessions sid srv (started : gset nat) :
  (∀ s, has_bot_thread srv s ↔ s ∈ started) ->
  length (Streamlit.threads srv) = size started ->
  (∀ s, has_bot_thread (Streamlit.script_run sid srv) s ↔ s ∈ {[sid]} ∪ started)
  ∧ length (Streamlit.threads (Streamlit.script_run sid srv))
    = size ({[sid]} ∪ started).
Proof.
  intros Hstate Hlen. unfold Streamlit.script_run.
  destruct (default ∅ (Streamlit.session_state srv !! sid) !! "bot_thread")
    as [thread|] eqn:Hkey.
  - assert (Hin : sid ∈ started).
    { apply Hstate. unfold has_bot_thread. by rewrite Hkey. }
    assert (Heq : {[sid]} ∪ started = started) by set_solver.
    by rewrite Heq.
  - assert (Hnin : sid ∉ started).
    { intros Hin. apply Hstate in Hin. unfold has_bot_thread in Hin.
      rewrite Hkey in Hin. by destruct Hin. }
    split.
    + intros s. unfold has_bot_thread. simpl.
      destruct (decide (s = sid)) as [->|Hne].
      * rewrite lookup_insert_eq. simpl. rewrite lookup_insert_eq.
        split; [intros _; set_solver | by eexists].
      * rewrite lookup_insert_ne by done.
        rewrite elem_of_union, elem_of_singleton, <- Hstate.
        unfold has_bot_thread. split; [by right | by intros [?|?]].
    + simpl. rewrite length_app, Hlen, size_union by set_solver.
      rewrite size_singleton. simpl. lia.
Qed.

Lemma script_runs_sessions sids srv (started : gset nat) :
  (∀ s, has_bot_thread srv s ↔ s ∈ started) ->
  length (Streamlit.threads srv) = size started ->
  length (Streamlit.threads (Streamlit.script_runs sids srv))
  = size (started ∪ list_to_set sids).
Proof.
  revert srv started. induction sids as [|sid sids IH]; intros srv started
    Hstate Hlen.
  - simpl. by rewrite (right_id_L ∅ (∪)).
  - destruct (script_run_sessions sid srv started Hstate Hlen) as [Hstate' Hlen'].
    unfold Streamlit.script_runs. simpl.
    change (foldl _ (Streamlit.script_run sid srv) sids)
      with (Streamlit.script_runs sids (Streamlit.script_run sid srv)).
    rewrite (IH _ _ Hstate' Hlen'). f_equal. set_solver.
Qed.

(** X15: the number of background threads a server process has started
    is the number of distinct sessions that have run the script: one for
    each session, however often the session reruns. *)
Theorem one_thread_per_session sids :
  length (Streamlit.threads (Streamlit.script_runs sids Streamlit.fresh))
  = size (list_to_set sids : gset nat).
Proof.
  rewrite (script_runs_sessions sids Streamlit.fresh ∅).
  - by rewrite (left_id_L ∅ (∪)).
  - intros s. unfold has_bot_thread. simpl. rewrite lookup_empty. simpl.
    rewrite lookup_empty. split; [by intros [? ?] | set_solver].
  - done.
Qed.

(** ** One entry for each feed, then the next one *)

(** What the next load gives after a cycle that returned and saved. *)
Lemma loaded_after_saved_cycle env env' w :
  hub_upload_error env = None -> hub_download_error env' = None ->
  (∀ links, set_order env links ≡ₚ elements links) ->
  (run_pipeline env w).1 = Returned tt ->
  added_links (cycle_trace env w) ≠ [] ->
  (∀ l, l ∈ added_links (cycle_trace env w) -> clean l) ->
  loaded env' (run_pipeline env w).2
  = list_to_set (added_links (cycle_trace env w)) ∪ loaded env w.
Proof.
  intros Hup Hdown Hperm Hout Hadded Hclean.
  destruct (cycle_cases env w) as (segs & o & Hrun & Hcases).
  destruct (feeds_run_added _ _ _ _ _ Hrun) as (_ & _ & _ & Hret).
  destruct Hcases as [(e' & _ & Hout' & _)|[(st & -> & Hflag & _ & Htr)
                     |(st & after & -> & Hflag & _ & Htr & _)]].
  - congruence.
  - exfalso. destruct (Hret st eq_refl) as [_ Hflag']. rewrite Hflag in Hflag'.
    simpl in Hflag'. symmetry in Hflag'. apply bool_decide_eq_false in Hflag'.
    apply Hflag'. intros Hsegs. apply Hadded. rewrite Htr. simpl.
    by rewrite Hsegs.
  - assert (Hsave : EvSave (seen_articles st) ∈ cycle_trace env w).
    { rewrite Htr. apply elem_of_app. right. left. }
    destruct (cycle_save_is_loaded_plus_added env w _ Hsave)
      as (Hlinks & _ & tr & Hworld).
    rewrite Hworld, (loaded_after_upload env env' _ _ Hup Hdown).
    rewrite parse_links_write_links.
    + by rewrite (Hperm _), list_to_set_elements_L.
    + apply Forall_forall. intros l Hl. rewrite (Hperm _) in Hl.
      apply elem_of_elements in Hl. rewrite Hlinks in Hl.
      apply elem_of_union in Hl as [Hl|Hl].
      * apply Hclean. by apply elem_of_list_to_set in Hl.
      * by apply (loaded_clean env w).
Qed.

(** C1, as stated, fails in two ways.  First, on a feed listed oldest to
    newest, [old; mid; new], with every collaborator working: the first
    cycle sends [new], the second sends [mid], and [old], the oldest
    entry, unseen all along, is not the one taken.  Second, on a feed
    listed newest first whose upload is refused: the first cycle returns
    after sending [old], nothing is stored, and the second cycle sends
    [old] again and not the next entry. *)
Lemma rerun_does_not_take_the_next_oldest :
  (let env := working_env oldest_first_feed in
   let w := initial_world None in
   let w1 := (run_pipeline env w).2 in
   entries (feedparser_parse env first_url) = [story_old; story_mid; story_new]
   ∧ published story_old < published story_mid < published story_new
   ∧ sent_links (cycle_trace env w) = ["https://example.org/new"]
   ∧ sent_links (cycle_trace env w1) = ["https://example.org/mid"]
   ∧ "https://example.org/old" ∉ loaded env w1)
  ∧ (let env := refused_upload_env in
     let w := initial_world None in
     let w1 := (run_pipeline env w).2 in
     entries (feedparser_parse env first_url) = [story_new; story_mid; story_old]
     ∧ (run_pipeline env w).1 = Returned tt
     ∧ sent_links (cycle_trace env w) = ["https://example.org/old"]
     ∧ sent_links (cycle_trace env w1) = ["https://example.org/old"]).
Proof.
  split.
  - intros env w w1. split; [reflexivity |]. split; [done |].
    split; [by vm_compute |]. split; [by vm_compute |].
    assert (Hloaded : loaded env w1 = {[ "https://example.org/new" ]})
      by (by vm_compute).
    rewrite Hloaded. intros Hin. apply elem_of_singleton in Hin. discriminate.
  - intros env w w1. split; [reflexivity |]. repeat split; by vm_compute.
Qed.

(** C1, amended.  In every cycle each configured feed has at most one
    entry processed (scraped, summarized, notified, added), however many
    unseen entries it holds, and what is processed was not in the set
    loaded at the start of the cycle.  Let a feed hold two unseen entries
    [e1] and [e2], both with a text, their links carried by no other
    feed, [e1] met first by the scan, which reads the feed's list
    backwards, and only seen entries before and between them.  If the
    cycle and its re-run both return, upload and download succeed, and the
    links added by the first cycle are free of line breaks and of white
    space at their ends, then the first cycle processes [e1] and takes no
    step for [e2], and the re-run processes [e2] and takes no step for
    [e1].  When the feed lists its entries newest first, [e1] is the
    oldest entry unseen at the first load and [e2] the oldest entry
    unseen at the second. *)
Theorem one_entry_per_feed_then_the_next_in_scan_order :
  (∀ env w, one_entry_per_feed (cycle_trace env w))
  ∧ (∀ env w ev l, ev ∈ cycle_trace env w -> event_link ev = Some l ->
                   l ∉ loaded env w)
  ∧ ∀ env w url rest e2 mid e1 pre l1 l2,
      hub_upload_error env = None -> hub_download_error env = None ->
      (∀ links, set_order env links ≡ₚ elements links) ->
      (run_pipeline env w).1 = Returned tt ->
      (run_pipeline env (run_pipeline env w).2).1 = Returned tt ->
      (∀ l, l ∈ added_links (cycle_trace env w) -> clean l) ->
      url ∈ RSS_URLS ->
      entries (feedparser_parse env url) = rest ++ e2 :: mid ++ e1 :: pre ->
      Forall (is_seen (loaded env w)) (mid ++ pre) ->
      link e1 = Some l1 -> link e2 = Some l2 -> l1 ≠ l2 ->
      l1 ∉ loaded env w -> l2 ∉ loaded env w ->
      truthy (scrape_article_text env l1) = true ->
      truthy (scrape_article_text env l2) = true ->
      (∀ u en, u ∈ RSS_URLS -> u ≠ url ->
               en ∈ entries (feedparser_parse env u) ->
               link en ≠ Some l1 ∧ link en ≠ Some l2) ->
      let w1 := (run_pipeline env w).2 in
      processed l1 (cycle_trace env w) ∧ untouched l2 (cycle_trace env w)
      ∧ processed l2 (cycle_trace env w1) ∧ untouched l1 (cycle_trace env w1)
      ∧ (newest_first (entries (feedparser_parse env url)) ->
         (∀ e' l', e' ∈ entries (feedparser_parse env url) ->
                   link e' = Some l' -> l' ∉ loaded env w ->
                   published e1 ≤ published e')
         ∧ (∀ e' l', e' ∈ entries (feedparser_parse env url) ->
                     link e' = Some l' -> l' ∉ loaded env w1 ->
                     published e2 ≤ published e')).
Proof.
  split.
  - intros env w.
    destruct (run_pipeline_shape env w) as (segs & o & tail & Hrun & Htr & Ho).
    exists segs, tail. split; [done |]. split; [by eapply feeds_run_segments |].
    intros ev Hev. destruct o as [st|e].
    + destruct Ho as [_ Ho]. destruct (new_links_added st).
      * destruct Ho as (_ & tail' & -> & Htail).
        apply elem_of_cons in Hev as [->|Hev]; [done |].
        destruct Htail as [->|[content ->]].
        -- by apply elem_of_nil in Hev.
        -- apply list_elem_of_singleton in Hev. by subst.
      * destruct Ho as [-> _]. by apply elem_of_nil in Hev.
    + destruct Ho as (_ & -> & _). by apply elem_of_nil in Hev.
  - split; [intros env w ev l Hev Hl;
            by destruct (cycle_touched_unseen env w ev l Hev Hl) |].
    intros env w url rest e2 mid e1 pre l1 l2 Hup Hdown Hperm Hout1 Hout2
      Hclean Hurl Hes Hseen Hl1 Hl2 Hne Hnew1 Hnew2 Ht1 Ht2 Habsent w1.
    apply Forall_app in Hseen as [Hmid Hpre].
    (* the first cycle *)
    destruct (cycle_target env w url (rest ++ e2 :: mid) e1 pre l1)
      as [Hp1 Hother]; try done.
    { by rewrite <- app_assoc. }
    { intros u en Hu Hne' Hen. by destruct (Habsent u en). }
    assert (Hun2 : untouched l2 (cycle_trace env w)).
    { apply Hother; [done |]. intros u en Hu Hne' Hen. by destruct (Habsent u en). }
    (* what the second cycle loads *)
    assert (Hadd1 : l1 ∈ added_links (cycle_trace env w)).
    { apply elem_of_added_links. by destruct Hp1 as (_ & _ & _ & ?). }
    assert (Hload : loaded env w1
                    = list_to_set (added_links (cycle_trace env w)) ∪ loaded env w).
    { apply loaded_after_saved_cycle; try done.
      intros Hnil. rewrite Hnil in Hadd1. by apply elem_of_nil in Hadd1. }
    assert (Hin1 : l1 ∈ loaded env w1).
    { rewrite Hload. by apply elem_of_union_l, elem_of_list_to_set. }
    assert (Hsub : loaded env w ⊆ loaded env w1).
    { rewrite Hload. apply union_subseteq_r. }
    assert (Hnew2' : l2 ∉ loaded env w1).
    { rewrite Hload. intros Hin. apply elem_of_union in Hin as [Hin|Hin]; [| done].
      apply elem_of_list_to_set, elem_of_added_links in Hin.
      by apply (Hun2 _ Hin). }
    (* the second cycle *)
    destruct (cycle_target env w1 url rest e2 (mid ++ e1 :: pre) l2)
      as [Hp2 _]; try done.
    { apply Forall_app. split.
      - eapply Forall_impl; [exact Hmid |]. intros en (l & Hk & Hin).
        exists l. split; [done | by apply Hsub].
      - constructor; [by exists l1 |].
        eapply Forall_impl; [exact Hpre |]. intros en (l & Hk & Hin).
        exists l. split; [done | by apply Hsub]. }
    { intros u en Hu Hne' Hen. by destruct (Habsent u en). }
    split; [done |]. split; [done |]. split; [done |]. split.
    { intros ev Hev Hlink.
      by destruct (cycle_touched_unseen env w1 ev l1 Hev Hlink). }
    (* the dates, for a feed listed newest first *)
    rewrite Hes. intros Hsorted.
    assert (Hseen_mid : ∀ e' l', e' ∈ mid -> link e' = Some l' ->
                                 l' ∈ loaded env w).
    { intros e' l' He' Hl'. rewrite Forall_forall in Hmid.
      destruct (Hmid e' He') as (l0 & Hk & Hin). congruence. }
    assert (Hseen_pre : ∀ e' l', e' ∈ pre -> link e' = Some l' ->
                                 l' ∈ loaded env w).
    { intros e' l' He' Hl'. rewrite Forall_forall in Hpre.
      destruct (Hpre e' He') as (l0 & Hk & Hin). congruence. }
    split.
    + intros e' l' Hin Hl' Hnew'.
      assert (Hsplit : rest ++ e2 :: mid ++ e1 :: pre
                       = (rest ++ e2 :: mid) ++ e1 :: pre)
        by (by rewrite <- app_assoc).
      pose proof Hsorted as Hsorted'. rewrite Hsplit in Hin, Hsorted'.
      apply elem_of_app in Hin as [Hin|Hin].
      * apply (StronglySorted_app_1_elem_of _ _ (e1 :: pre) e' e1 Hsorted' Hin).
        left.
      * apply elem_of_cons in Hin as [->|Hin]; [done |].
        by destruct (Hnew' (Hseen_pre e' l' Hin Hl')).
    + intros e' l' Hin Hl' Hnew'.
      apply elem_of_app in Hin as [Hin|Hin].
      * apply (StronglySorted_app_1_elem_of _ rest (e2 :: mid ++ e1 :: pre)
                 e' e2 Hsorted Hin). left.
      * apply elem_of_cons in Hin as [->|Hin]; [done |].
        exfalso. apply Hnew'. apply elem_of_app in Hin as [Hin|Hin].
        -- apply Hsub. by apply (Hseen_mid e' l').
        -- apply elem_of_cons in Hin as [->|Hin].
           ++ congruence.
           ++ apply Hsub. by apply (Hseen_pre e' l').
Qed.

(** C1 amended, on a feed listed newest first with a backlog of three
    unseen entries: the first cycle delivers [old], the oldest, and the
    re-run delivers [mid], the oldest of those left. *)
Lemma one_entry_per_feed_then_the_next_in_scan_order_witness :
  let env := working_env newest_first_feed in
  let w := initial_world None in
  let w1 := (run_pipeline env w).2 in
  processed "https://example.org/old" (cycle_trace env w)
  ∧ untouched "https://example.org/mid" (cycle_trace env w)
  ∧ processed "https://example.org/mid" (cycle_trace env w1)
  ∧ untouched "https://example.org/old" (cycle_trace env w1)
  ∧ (∀ e' l', e' ∈ entries (feedparser_parse env first_url) ->
              link e' = Some l' -> l' ∉ loaded env w ->
              published story_old ≤ published e')
  ∧ (∀ e' l', e' ∈ entries (feedparser_parse env first_url) ->
              link e' = Some l' -> l' ∉ loaded env w1 ->
              published story_mid ≤ published e').
Proof.
  intros env w w1.
  destruct (proj2 (proj2 one_entry_per_feed_then_the_next_in_scan_order)
              env w first_url [story_new] story_mid [] story_old []
              "https://example.org/old" "https://example.org/mid")
    as (Hp1 & Hun2 & Hp2 & Hun1 & Hdates).
  - reflexivity.
  - reflexivity.
  - reflexivity.
  - by vm_compute.
  - by vm_compute.
  - intros l Hl. vm_compute in Hl. apply list_elem_of_singleton in Hl.
    subst l. by destruct clean_example_links as (? & _).
  - apply list_elem_of_here.
  - reflexivity.
  - constructor.
  - reflexivity.
  - reflexivity.
  - discriminate.
  - unfold w. rewrite loaded_fresh. apply not_elem_of_empty.
  - unfold w. rewrite loaded_fresh. apply not_elem_of_empty.
  - reflexivity.
  - reflexivity.
  - intros u en _ Hne Hen.
    by destruct (working_env_other_feeds newest_first_feed u en Hne).
  - destruct (Hdates newest_first_feed_sorted) as [Hd1 Hd2]. done.
Defined.
